(** * 1D segment tree with range updates (lazy propagation)

    Shallow embedding of [segment_tree<int>] from
    "Section-3-Data-Structures/3.3.3 Segment Tree Range Updates.cpp".

    The class keeps two heap buffers of [4*len] cells ([tree] and [lazy]),
    the borrowed initial array [init], and three call-scoped fields
    ([x], [y], [val]) that the public operations set before they start the
    recursion.  The embedding keeps all of them in one record that is
    threaded through every operation.  Buffer accesses are checked: an
    index outside the buffer yields [Err OutOfBounds].  The recursive
    functions take a bound on the recursion depth; the public operations
    supply [len], which is always enough for [len > 0].

    Values of type [int] are integers; [is_int] says that one is
    representable.  Index arithmetic ([node*2 + 1], [4*len], [lo + hi]) is
    done on unbounded integers, which agrees with the source's [int]
    arithmetic as long as [4*len] is representable; the theorems about
    construction carry [4 * N <= INT_MAX] as a hypothesis. *)

From Stdlib Require Import ZArith Lia Bool List.
From stdpp Require Import base list.

Local Open Scope Z_scope.

(** ** Results of fallible computations *)

Inductive error : Type :=
| OutOfBounds   (* a buffer was indexed outside its allocation *)
| OutOfFuel.    (* the recursion did not finish within its depth bound *)

Inductive result (A : Type) : Type :=
| Ok (a : A)
| Err (e : error).

Arguments Ok {A} a.
Arguments Err {A} e.

Definition bind {A B : Type} (m : result A) (f : A → result B) : result B :=
  match m with
  | Ok a => f a
  | Err e => Err e
  end.

Notation "'let!' p ':=' m 'in' k" := (bind m (fun p => k))
  (at level 10, p pattern, m at level 200, k at level 200,
   format "'[v' 'let!'  p  ':='  m  'in' '/' k ']'").

(** ** The element type and the customisation points *)

Definition INT_MIN : Z := - 2 ^ 31.
Definition INT_MAX : Z := 2 ^ 31 - 1.

Definition is_int (v : Z) : Prop := INT_MIN <= v <= INT_MAX.

(** [static inline const T nullv() { return std::numeric_limits<T>::min(); }] *)
Definition nullv : Z := INT_MIN.

(** [static inline const T merge(a, b) { return a > b ? a : b; }] *)
Definition merge (a b : Z) : Z := if a >? b then a else b.

Arguments nullv : simpl never.
Arguments merge : simpl never.

(** ** Buffers *)

(** [buf[i]] as an rvalue. *)
Definition load (buf : list Z) (i : Z) : result Z :=
  if (0 <=? i) && (i <? Z.of_nat (length buf)) then
    match buf !! Z.to_nat i with
    | Some v => Ok v
    | None => Err OutOfBounds
    end
  else Err OutOfBounds.

(** [buf[i] = v]. *)
Definition store (buf : list Z) (i v : Z) : result (list Z) :=
  if (0 <=? i) && (i <? Z.of_nat (length buf)) then Ok (<[Z.to_nat i := v]> buf)
  else Err OutOfBounds.

(** [new T[n]]: [n] cells with indeterminate contents; [junk] says what the
    allocator happens to hand out. *)
Definition new_array (n : Z) (junk : Z → Z) : list Z :=
  map (fun i => junk (Z.of_nat i)) (seq 0 (Z.to_nat n)).

(** ** The object *)

Record segment_tree : Type := mk_segment_tree {
  len : Z;
  x : Z;
  y : Z;
  tree : list Z;
  lazy : list Z;
  init : list Z;
  val : Z
}.

Definition set_tree (s : segment_tree) (t : list Z) : segment_tree :=
  mk_segment_tree (len s) (x s) (y s) t (lazy s) (init s) (val s).

Definition set_lazy (s : segment_tree) (z : list Z) : segment_tree :=
  mk_segment_tree (len s) (x s) (y s) (tree s) z (init s) (val s).

Definition set_init (s : segment_tree) (a : list Z) : segment_tree :=
  mk_segment_tree (len s) (x s) (y s) (tree s) (lazy s) a (val s).

Definition set_range (s : segment_tree) (lo hi : Z) : segment_tree :=
  mk_segment_tree (len s) lo hi (tree s) (lazy s) (init s) (val s).

Definition set_val (s : segment_tree) (v : Z) : segment_tree :=
  mk_segment_tree (len s) (x s) (y s) (tree s) (lazy s) (init s) v.

(** ** Private member functions *)

(** [build(node, lo, hi)], lines 71-79.  Note line 78: the node is given
    [merge(tree[node*2], tree[node*2 + 1])]. *)
Fixpoint build (fuel : nat) (node lo hi : Z) (s : segment_tree)
  : result segment_tree :=
  match fuel with
  | O => Err OutOfFuel
  | S fuel =>
    if lo =? hi then
      let! v := load (init s) lo in
      let! t := store (tree s) node v in
      Ok (set_tree s t)
    else
      let! s1 := build fuel (node * 2 + 1) lo ((lo + hi) ÷ 2) s in
      let! s2 := build fuel (node * 2 + 2) ((lo + hi) ÷ 2 + 1) hi s1 in
      let! a := load (tree s2) (node * 2) in
      let! b := load (tree s2) (node * 2 + 1) in
      let! t := store (tree s2) node (merge a b) in
      Ok (set_tree s2 t)
  end.

(** The push-down step, written out twice in the source (lines 88-91 and
    107-110):
    [if (lazy[node] != nullv()) {
       lazy[Lchild] = lazy[Rchild] = lazy[node];
       lazy[node] = nullv();
     }] *)
Definition push_down (node Lchild Rchild : Z) (s : segment_tree)
  : result segment_tree :=
  let! l := load (lazy s) node in
  if negb (l =? nullv) then
    let! z1 := store (lazy s) Rchild l in
    let! z2 := store z1 Lchild l in
    let! z3 := store z2 node nullv in
    Ok (set_lazy s z3)
  else Ok s.

(** [internal_query(node, lo, hi)], lines 81-94.  The two recursive calls
    are the arguments of one call of [merge]; they are sequenced here left
    to right. *)
Fixpoint internal_query (fuel : nat) (node lo hi : Z) (s : segment_tree)
  : result (Z * segment_tree) :=
  match fuel with
  | O => Err OutOfFuel
  | S fuel =>
    if (x s >? hi) || (y s <? lo) then Ok (nullv, s)
    else if (x s <=? lo) && (hi <=? y s) then
      let! l := load (lazy s) node in
      if l =? nullv then
        let! t := load (tree s) node in
        Ok (t, s)
      else
        let! t := store (tree s) node l in
        Ok (l, set_tree s t)
    else
      let Lchild := node * 2 + 1 in
      let Rchild := node * 2 + 2 in
      let! s1 := push_down node Lchild Rchild s in
      let! (a, s2) := internal_query fuel Lchild lo ((lo + hi) ÷ 2) s1 in
      let! (b, s3) := internal_query fuel Rchild ((lo + hi) ÷ 2 + 1) hi s2 in
      Ok (merge a b, s3)
  end.

(** [internal_update(node, lo, hi)], lines 96-114. *)
Fixpoint internal_update (fuel : nat) (node lo hi : Z) (s : segment_tree)
  : result segment_tree :=
  match fuel with
  | O => Err OutOfFuel
  | S fuel =>
    if (x s >? hi) || (y s <? lo) then Ok s
    else if lo =? hi then
      let! t := store (tree s) node (val s) in
      Ok (set_tree s t)
    else if (x s <=? lo) && (hi <=? y s) then
      let! l := load (lazy s) node in
      let! z := store (lazy s) node (merge l (val s)) in
      let! t := store (tree s) node (merge l (val s)) in
      Ok (set_tree (set_lazy s z) t)
    else
      let Lchild := node * 2 + 1 in
      let Rchild := node * 2 + 2 in
      let! s1 := push_down node Lchild Rchild s in
      let! s2 := internal_update fuel Lchild lo ((lo + hi) ÷ 2) s1 in
      let! s3 := internal_update fuel Rchild ((lo + hi) ÷ 2 + 1) hi s2 in
      let! a := load (tree s3) Lchild in
      let! b := load (tree s3) Rchild in
      let! t := store (tree s3) node (merge a b) in
      Ok (set_tree s3 t)
  end.

(** ** Public member functions *)

(** The loop [for (int i = 0; i < (len << 2); i++) lazy[i] = nullv();]. *)
Definition clear_lazy (n : Z) (buf : list Z) : result (list Z) :=
  foldl (fun acc i => let! z := acc in store z (Z.of_nat i) nullv)
        (Ok buf) (seq 0 (Z.to_nat (Z.shiftl n 2))).

(** The constructor, lines 36-45.  [x], [y] and [val] are indeterminate
    after construction; every public operation writes them before it reads
    them, and they are given as [0] here. *)
Definition segment_tree_new (N : Z) (array : option (list Z)) (junk : Z → Z)
  : result segment_tree :=
  let s := mk_segment_tree N 0 0 (new_array (4 * N) junk)
                           (new_array (4 * N) junk) [] 0 in
  let! z := clear_lazy (len s) (lazy s) in
  let s := set_lazy s z in
  match array with
  | Some a => build (Z.to_nat (len s)) 0 0 (len s - 1) (set_init s a)
  | None => Ok s
  end.

Definition size (s : segment_tree) : Z := len s.

(** [T query(int lo, int hi)] *)
Definition query (lo hi : Z) (s : segment_tree) : result (Z * segment_tree) :=
  internal_query (Z.to_nat (len s)) 0 0 (len s - 1) (set_range s lo hi).

(** [T at(int idx) { return query(idx, idx); }] *)
Definition at_ (idx : Z) (s : segment_tree) : result (Z * segment_tree) :=
  query idx idx s.

(** [void update(int lo, int hi, const T & v)] *)
Definition update (lo hi v : Z) (s : segment_tree) : result segment_tree :=
  internal_update (Z.to_nat (len s)) 0 0 (len s - 1)
                  (set_val (set_range s lo hi) v).

(** [void update(int idx, const T & v)] *)
Definition update_point (idx v : Z) (s : segment_tree) : result segment_tree :=
  internal_update (Z.to_nat (len s)) 0 0 (len s - 1)
                  (set_val (set_range s idx idx) v).

(** The value an operation returned, for stating results. *)
Definition value {A : Type} (r : result (Z * A)) : option Z :=
  match r with
  | Ok (v, _) => Some v
  | Err _ => None
  end.

(** * Notions used to state and prove the properties *)

(** ** Buffers: total reads for stating facts about cells *)

Definition rd (buf : list Z) (i : Z) : Z :=
  match load buf i with
  | Ok v => v
  | Err _ => 0
  end.

Definition in_buf (buf : list Z) (i : Z) : Prop :=
  0 <= i < Z.of_nat (length buf).

(** ** Positions in the implicit tree

    [desc r i]: cell [i] lies in the subtree hanging from node [r], whose
    children are [r*2 + 1] and [r*2 + 2]. *)

Inductive desc (r : Z) : Z → Prop :=
| desc_self : desc r r
| desc_left i : desc (r * 2 + 1) i → desc r i
| desc_right i : desc (r * 2 + 2) i → desc r i.

(** ** What an operation leaves alone *)

(** The scalar fields and the buffer sizes are the same in [s] and [s']. *)
Definition same_shape (s s' : segment_tree) : Prop :=
  len s' = len s ∧ x s' = x s ∧ y s' = y s ∧ val s' = val s ∧
  init s' = init s ∧
  length (tree s') = length (tree s) ∧ length (lazy s') = length (lazy s).

(** Every cell outside the subtree of [r] is the same in [s] and [s']. *)
Definition outside_kept (r : Z) (s s' : segment_tree) : Prop :=
  ∀ i, ¬ desc r i →
       rd (tree s') i = rd (tree s) i ∧ rd (lazy s') i = rd (lazy s) i.

(** [s] and [s'] have the same cells in the subtree of [r]. *)
Definition inside_same (r : Z) (s s' : segment_tree) : Prop :=
  ∀ i, desc r i →
       rd (tree s') i = rd (tree s) i ∧ rd (lazy s') i = rd (lazy s) i.

(** ** The recursion stays inside the buffers *)

Fixpoint pow2 (k : nat) : Z :=
  match k with
  | O => 1
  | S k => 2 * pow2 k
  end.

(** A call [(node, lo, hi)] fits into buffers of [B] cells when its range has
    at most [2^k] cells and the complete subtree of height [k] below [node]
    ends before [B]. *)
Definition fits (B node lo hi : Z) : Prop :=
  0 <= node ∧ 0 <= lo ∧ lo <= hi ∧
  ∃ k : nat, hi - lo + 1 <= pow2 k ∧ (node + 2) * pow2 k <= B.

(** Both buffers of [s] have [B] cells. *)
Definition sized (B : Z) (s : segment_tree) : Prop :=
  Z.of_nat (length (tree s)) = B ∧ Z.of_nat (length (lazy s)) = B.

(** The buffers have [4 * len] cells and [len] is positive. *)
Definition allocated (s : segment_tree) : Prop :=
  0 < len s ∧ sized (4 * len s) s.

(** No cell of the subtree of [r] has a pending lazy value. *)
Definition no_pending_in (r : Z) (s : segment_tree) : Prop :=
  ∀ i, desc r i → in_buf (lazy s) i → rd (lazy s) i = nullv.

(** ** Reachable states *)

(** The states a caller can obtain: construct with a positive size (and an
    initial array of that size, if any), then call the public operations
    with indices inside [0, len). *)
Inductive reachable : segment_tree → Prop :=
| reach_new N array junk s :
    0 < N →
    (∀ a, array = Some a → Z.of_nat (length a) = N) →
    segment_tree_new N array junk = Ok s →
    reachable s
| reach_at idx s v s' :
    reachable s → 0 <= idx < len s →
    at_ idx s = Ok (v, s') →
    reachable s'
| reach_query lo hi s v s' :
    reachable s → 0 <= lo → lo <= hi → hi < len s →
    query lo hi s = Ok (v, s') →
    reachable s'
| reach_update_point idx v s s' :
    reachable s → 0 <= idx < len s →
    update_point idx v s = Ok s' →
    reachable s'
| reach_update lo hi v s s' :
    reachable s → 0 <= lo → lo <= hi → hi < len s →
    update lo hi v s = Ok s' →
    reachable s'.

(** ** The value a query reads off a state

    [qval fuel a b node lo hi inh s] is the answer of the query [[a, b]] at
    [(node, lo, hi)], computed from [s] without changing it.  [inh] is the
    pending value that the ancestors would have pushed onto [node] by the
    time the traversal arrives ([nullv] if none).  It is a proof device;
    the theorems below are stated about [query], [at_] and [update]. *)
Fixpoint qval (fuel : nat) (a b node lo hi inh : Z) (s : segment_tree) : Z :=
  match fuel with
  | O => nullv
  | S fuel =>
    if (a >? hi) || (b <? lo) then nullv
    else
      let e := if inh =? nullv then rd (lazy s) node else inh in
      if (a <=? lo) && (hi <=? b) then
        if e =? nullv then rd (tree s) node else e
      else
        merge (qval fuel a b (node * 2 + 1) lo ((lo + hi) ÷ 2) e s)
              (qval fuel a b (node * 2 + 2) ((lo + hi) ÷ 2 + 1) hi e s)
  end.

(** ** States used in the examples

    The driver's array [{6, 4, 1, 8, 10}], allocated in zeroed memory. *)

Definition demo_array : list Z := [6; 4; 1; 8; 10].

Definition or_else (r : result segment_tree) (d : segment_tree) : segment_tree :=
  match r with
  | Ok s => s
  | Err _ => d
  end.

Definition blank : segment_tree := mk_segment_tree 0 0 0 [] [] [] 0.

Definition demo : segment_tree :=
  Eval vm_compute in
    or_else (segment_tree_new 5 (Some demo_array) (fun _ => 0)) blank.

(** A tree of size 5 constructed without an initial array, in memory whose
    cell [i] holds [100 + i]. *)
Definition demo_raw : segment_tree :=
  Eval vm_compute in
    or_else (segment_tree_new 5 None (fun i => 100 + i)) blank.

(** [demo] after [update(0, 4, 7)]: the root has a pending value. *)
Definition demo_pending : segment_tree :=
  Eval vm_compute in or_else (update 0 4 7 demo) blank.

Definition demo_pushed : segment_tree :=
  Eval vm_compute in or_else (push_down 0 1 2 demo_pending) blank.

(** The array [{1, 2}] in zeroed memory, then [update(0, 1, 5)], then
    [update(0, 0, 9)]. *)
Definition pair_fresh : segment_tree :=
  Eval vm_compute in
    or_else (segment_tree_new 2 (Some [1; 2]) (fun _ => 0)) blank.

Definition pair_covered : segment_tree :=
  Eval vm_compute in or_else (update 0 1 5 pair_fresh) blank.

Definition pair_point : segment_tree :=
  Eval vm_compute in or_else (update 0 0 9 pair_covered) blank.

(** ** The other order of evaluation

    C++ does not fix the order in which the two arguments of
    [merge(internal_query(...), internal_query(...))] are evaluated.
    [internal_query] above takes them left to right; this is the same
    function with the right call first. *)
Fixpoint internal_query_rl (fuel : nat) (node lo hi : Z) (s : segment_tree)
  : result (Z * segment_tree) :=
  match fuel with
  | O => Err OutOfFuel
  | S fuel =>
    if (x s >? hi) || (y s <? lo) then Ok (nullv, s)
    else if (x s <=? lo) && (hi <=? y s) then
      let! l := load (lazy s) node in
      if l =? nullv then
        let! t := load (tree s) node in
        Ok (t, s)
      else
        let! t := store (tree s) node l in
        Ok (l, set_tree s t)
    else
      let Lchild := node * 2 + 1 in
      let Rchild := node * 2 + 2 in
      let! s1 := push_down node Lchild Rchild s in
      let! (b, s2) := internal_query_rl fuel Rchild ((lo + hi) ÷ 2 + 1) hi s1 in
      let! (a, s3) := internal_query_rl fuel Lchild lo ((lo + hi) ÷ 2) s2 in
      Ok (merge a b, s3)
  end.

(** ** The driver

    [main] prints the elements of the tree with the loop
    [for (int i = 0; i < T.size(); i++) cout << " " << T.at(i);].
    The numbers it prints are collected in a list. *)

Fixpoint print_from (n : nat) (i : Z) (s : segment_tree)
  : result (list Z * segment_tree) :=
  match n with
  | O => Ok ([], s)
  | S n =>
    let! (v, s1) := at_ i s in
    let! (out, s2) := print_from n (i + 1) s1 in
    Ok (v :: out, s2)
  end.

Definition print_all (s : segment_tree) : result (list Z * segment_tree) :=
  print_from (Z.to_nat (size s)) 0 s.

(** [main], lines 122-136: the two printed lines of elements and the
    number printed for [T.query(0, 3)]. *)
Definition main (junk : Z → Z) : result (list Z * list Z * Z) :=
  let arr := [6; 4; 1; 8; 10] in
  let! T := segment_tree_new 5 (Some arr) junk in
  let! (before, T) := print_all T in
  let! T := update 2 4 12 T in
  let! (after, T) := print_all T in
  let! (q, T) := query 0 3 T in
  Ok (before, after, q).

(** * Reasoning about the embedding *)

(** ** Inversion of monadic computations *)

Lemma bind_Ok {A B : Type} (m : result A) (f : A → result B) (b : B) :
  bind m f = Ok b → ∃ a, m = Ok a ∧ f a = Ok b.
Proof. destruct m as [a|e]; simpl; intros H; [eauto | discriminate]. Qed.

Ltac inv_ok H :=
  lazymatch type of H with
  | bind _ _ = Ok _ =>
      let a := fresh "r" in
      let E := fresh "E" in
      apply bind_Ok in H as (a & E & H);
      try (lazymatch type of a with prod _ _ => destruct a as [? ?] end);
      inv_ok H
  | Ok _ = Ok _ => inversion H; subst; clear H
  | Err _ = Ok _ => discriminate H
  | _ => idtac
  end.

(** ** Checked and total buffer accesses agree *)

Lemma load_in buf i : in_buf buf i → load buf i = Ok (rd buf i).
Proof.
  unfold in_buf, rd, load. intros Hi.
  replace ((0 <=? i) && (i <? Z.of_nat (length buf))) with true
    by (symmetry; apply andb_true_iff; split; [apply Z.leb_le|apply Z.ltb_lt]; lia).
  destruct (lookup_lt_is_Some_2 buf (Z.to_nat i)) as [v Hv]; [lia|].
  by rewrite Hv.
Qed.

Lemma load_Ok buf i v : load buf i = Ok v → in_buf buf i ∧ rd buf i = v.
Proof.
  unfold rd, in_buf. intros H. rewrite H. split; [|done].
  unfold load in H.
  destruct ((0 <=? i) && (i <? Z.of_nat (length buf))) eqn:E; [|discriminate].
  apply andb_true_iff in E as [E1 E2].
  apply Z.leb_le in E1. apply Z.ltb_lt in E2. lia.
Qed.

Lemma store_in buf i v :
  in_buf buf i → store buf i v = Ok (<[Z.to_nat i := v]> buf).
Proof.
  unfold in_buf, store. intros Hi.
  replace ((0 <=? i) && (i <? Z.of_nat (length buf))) with true; [done|].
  symmetry; apply andb_true_iff; split; [apply Z.leb_le|apply Z.ltb_lt]; lia.
Qed.

Lemma store_Ok buf i v buf' :
  store buf i v = Ok buf' →
  in_buf buf i ∧ length buf' = length buf ∧ rd buf' i = v ∧
  ∀ j, j ≠ i → rd buf' j = rd buf j.
Proof.
  unfold store. intros H.
  destruct ((0 <=? i) && (i <? Z.of_nat (length buf))) eqn:E; [|discriminate].
  apply andb_true_iff in E as [E1 E2].
  apply Z.leb_le in E1. apply Z.ltb_lt in E2.
  inversion H; subst; clear H.
  assert (Hlen : length (<[Z.to_nat i:=v]> buf) = length buf)
    by apply length_insert.
  split; [unfold in_buf; lia|]. split; [done|]. split.
  - unfold rd. rewrite load_in by (unfold in_buf; lia).
    unfold rd, load. rewrite Hlen.
    replace ((0 <=? i) && (i <? Z.of_nat (length buf))) with true
      by (symmetry; apply andb_true_iff; split; [apply Z.leb_le|apply Z.ltb_lt]; lia).
    rewrite list_lookup_insert_eq by lia. done.
  - intros j Hj. unfold rd, load. rewrite Hlen.
    destruct ((0 <=? j) && (j <? Z.of_nat (length buf))) eqn:Ej; [|done].
    apply andb_true_iff in Ej as [Ej1 Ej2]. apply Z.leb_le in Ej1.
    rewrite list_lookup_insert_ne by lia. done.
Qed.

(** ** Subtrees of different children are disjoint *)

Lemma desc_ge r i : desc r i → 0 <= r → r <= i.
Proof. induction 1; intros; lia. Qed.

Lemma div_le_self a b : 0 <= a → 0 < b → a / b <= a.
Proof.
  intros Ha Hb. apply Z.div_le_upper_bound; [lia|]. nia.
Qed.

Lemma desc_level r i :
  desc r i → 0 <= r → ∃ d : nat, (i + 1) / 2 ^ Z.of_nat d = r + 1.
Proof.
  induction 1 as [r|r i _ IH|r i _ IH]; intros Hr.
  - exists O. simpl. apply Z.div_1_r.
  - destruct IH as [d Hd]; [lia|]. exists (S d).
    rewrite Nat2Z.inj_succ, Z.pow_succ_r by lia.
    rewrite (Z.mul_comm 2), <- Z.div_div by lia.
    rewrite Hd. replace (r * 2 + 1 + 1) with ((r + 1) * 2) by lia.
    apply Z.div_mul. lia.
  - destruct IH as [d Hd]; [lia|]. exists (S d).
    rewrite Nat2Z.inj_succ, Z.pow_succ_r by lia.
    rewrite (Z.mul_comm 2), <- Z.div_div by lia.
    rewrite Hd. replace (r * 2 + 2 + 1) with (1 + (r + 1) * 2) by lia.
    rewrite Z.div_add by lia. change (1 / 2) with 0. lia.
Qed.

Lemma div_pow_split m (d e : nat) :
  (d <= e)%nat →
  m / 2 ^ Z.of_nat e = m / 2 ^ Z.of_nat d / 2 ^ Z.of_nat (e - d).
Proof.
  intros Hde. rewrite Z.div_div by lia.
  rewrite <- Z.pow_add_r by lia. do 2 f_equal. lia.
Qed.

Lemma desc_siblings r i :
  0 <= r → desc (r * 2 + 1) i → desc (r * 2 + 2) i → False.
Proof.
  intros Hr Hl Hrr.
  apply desc_level in Hl as [d Hd]; [|lia].
  apply desc_level in Hrr as [e He]; [|lia].
  destruct (Nat.le_gt_cases d e) as [Hde|Hde].
  - rewrite (div_pow_split _ d e Hde), Hd in He.
    assert (Hp : 0 < 2 ^ Z.of_nat (e - d)) by (apply Z.pow_pos_nonneg; lia).
    pose proof (div_le_self (r * 2 + 1 + 1) _ ltac:(lia) Hp) as Hle.
    rewrite He in Hle. lia.
  - rewrite (div_pow_split _ e d) in Hd by lia. rewrite He in Hd.
    destruct (d - e)%nat as [|k] eqn:Hk; [lia|].
    rewrite Nat2Z.inj_succ, Z.pow_succ_r in Hd by lia.
    rewrite <- Z.div_div in Hd by (try apply Z.pow_pos_nonneg; lia).
    replace (r * 2 + 2 + 1) with (1 + (r + 1) * 2) in Hd by lia.
    rewrite Z.div_add in Hd by lia. change (1 / 2) with 0 in Hd.
    assert (Hp : 0 < 2 ^ Z.of_nat k) by (apply Z.pow_pos_nonneg; lia).
    pose proof (div_le_self (r + 1) _ ltac:(lia) Hp) as Hle.
    rewrite Z.add_0_l in Hd. rewrite Hd in Hle. lia.
Qed.

Lemma desc_not_parent_l r : 0 <= r → ¬ desc (r * 2 + 1) r.
Proof. intros Hr H. apply desc_ge in H; lia. Qed.

Lemma desc_not_parent_r r : 0 <= r → ¬ desc (r * 2 + 2) r.
Proof. intros Hr H. apply desc_ge in H; lia. Qed.

(** ** Each operation changes only the subtree it is called on *)

Lemma same_shape_refl s : same_shape s s.
Proof. by repeat split. Qed.

Lemma same_shape_trans s1 s2 s3 :
  same_shape s1 s2 → same_shape s2 s3 → same_shape s1 s3.
Proof. unfold same_shape. intuition congruence. Qed.

Lemma outside_kept_refl r s : outside_kept r s s.
Proof. by intros i _. Qed.

Lemma outside_kept_trans r s1 s2 s3 :
  outside_kept r s1 s2 → outside_kept r s2 s3 → outside_kept r s1 s3.
Proof.
  intros H1 H2 i Hi. destruct (H1 i Hi), (H2 i Hi). split; congruence.
Qed.

Lemma outside_kept_left r s s' :
  outside_kept (r * 2 + 1) s s' → outside_kept r s s'.
Proof. intros H i Hi. apply H. intros Hd. apply Hi. by apply desc_left. Qed.

Lemma outside_kept_right r s s' :
  outside_kept (r * 2 + 2) s s' → outside_kept r s s'.
Proof. intros H i Hi. apply H. intros Hd. apply Hi. by apply desc_right. Qed.

Lemma set_tree_frame s r v t :
  store (tree s) r v = Ok t →
  same_shape s (set_tree s t) ∧ outside_kept r s (set_tree s t).
Proof.
  intros H. apply store_Ok in H as (_ & Hlen & _ & Hne). split.
  - by repeat split.
  - intros i Hi. simpl. split; [|done]. apply Hne. intros ->. apply Hi, desc_self.
Qed.

Create HintDb seg.
#[local] Hint Resolve same_shape_refl outside_kept_refl : seg.

(** The push-down step: nothing happens when nothing is pending; otherwise
    the pending value replaces the pending value of both children and the
    node's own pending value is cleared. *)
Lemma push_down_Ok r s s' :
  0 <= r →
  push_down r (r * 2 + 1) (r * 2 + 2) s = Ok s' →
  same_shape s s' ∧ tree s' = tree s ∧ in_buf (lazy s) r ∧
  rd (lazy s') r = nullv ∧
  (rd (lazy s) r = nullv → s' = s) ∧
  (rd (lazy s) r ≠ nullv →
   rd (lazy s') (r * 2 + 1) = rd (lazy s) r ∧
   rd (lazy s') (r * 2 + 2) = rd (lazy s) r) ∧
  (∀ j, j ≠ r → j ≠ r * 2 + 1 → j ≠ r * 2 + 2 →
        rd (lazy s') j = rd (lazy s) j).
Proof.
  intros Hr H. unfold push_down in H.
  apply bind_Ok in H as (l & El & H).
  apply load_Ok in El as [Hin El]. subst l.
  destruct (rd (lazy s) r =? nullv) eqn:E; simpl in H.
  - apply Z.eqb_eq in E. inv_ok H.
    split; [apply same_shape_refl|]. repeat (split; [done|]). done.
  - apply Z.eqb_neq in E. inv_ok H.
    apply store_Ok in E0 as (_ & L1 & V1 & N1).
    apply store_Ok in E1 as (_ & L2 & V2 & N2).
    apply store_Ok in E2 as (_ & L3 & V3 & N3).
    simpl. split; [|split; [done|split; [done|split; [done|split; [done|split]]]]].
    + unfold same_shape; simpl. repeat (split; [done|]). congruence.
    + intros _. split.
      * rewrite N3, V2 by lia. done.
      * rewrite N3, N2, V1 by lia. done.
    + intros j H1 H2 H3. rewrite N3, N2, N1 by lia. done.
Qed.

Lemma push_down_frame r s s' :
  0 <= r →
  push_down r (r * 2 + 1) (r * 2 + 2) s = Ok s' →
  same_shape s s' ∧ outside_kept r s s'.
Proof.
  intros Hr H. apply push_down_Ok in H as (Hs & Ht & _ & _ & _ & _ & Hj); [|done].
  split; [done|]. intros i Hi. rewrite Ht. split; [done|].
  apply Hj; intros ->; apply Hi; eauto using desc.
Qed.

Lemma internal_query_frame fuel : ∀ node lo hi s v s',
  0 <= node →
  internal_query fuel node lo hi s = Ok (v, s') →
  same_shape s s' ∧ outside_kept node s s'.
Proof.
  induction fuel as [|fuel IH]; intros node lo hi s v s' Hn H; simpl in H;
    [discriminate|].
  destruct ((x s >? hi) || (y s <? lo)).
  { inv_ok H. auto with seg. }
  destruct ((x s <=? lo) && (hi <=? y s)).
  { apply bind_Ok in H as (l & El & H).
    destruct (l =? nullv); inv_ok H; [auto with seg|].
    eapply set_tree_frame; eauto. }
  inv_ok H.
  apply push_down_frame in E as [A1 B1]; [|done].
  apply IH in E0 as [A2 B2]; [|lia].
  apply IH in E1 as [A3 B3]; [|lia].
  split; [eauto using same_shape_trans|].
  eauto using outside_kept_trans, outside_kept_left, outside_kept_right.
Qed.

Lemma internal_update_frame fuel : ∀ node lo hi s s',
  0 <= node →
  internal_update fuel node lo hi s = Ok s' →
  same_shape s s' ∧ outside_kept node s s'.
Proof.
  induction fuel as [|fuel IH]; intros node lo hi s s' Hn H; simpl in H;
    [discriminate|].
  destruct ((x s >? hi) || (y s <? lo)).
  { inv_ok H. auto with seg. }
  destruct (lo =? hi).
  { inv_ok H. eapply set_tree_frame; eauto. }
  destruct ((x s <=? lo) && (hi <=? y s)).
  { inv_ok H.
    apply store_Ok in E0 as (_ & L1 & _ & N1).
    apply store_Ok in E1 as (_ & L2 & _ & N2).
    split; [by repeat split|].
    intros i Hi. simpl.
    assert (i ≠ node) by (intros ->; apply Hi, desc_self).
    rewrite N1, N2 by done. done. }
  inv_ok H.
  apply push_down_frame in E as [A1 B1]; [|done].
  apply IH in E0 as [A2 B2]; [|lia].
  apply IH in E1 as [A3 B3]; [|lia].
  apply set_tree_frame in E4 as [A4 B4].
  split; [eauto using same_shape_trans|].
  eauto 8 using outside_kept_trans, outside_kept_left, outside_kept_right.
Qed.

Lemma build_frame fuel : ∀ node lo hi s s',
  0 <= node →
  build fuel node lo hi s = Ok s' →
  same_shape s s' ∧ outside_kept node s s' ∧ lazy s' = lazy s.
Proof.
  induction fuel as [|fuel IH]; intros node lo hi s s' Hn H; simpl in H;
    [discriminate|].
  destruct (lo =? hi).
  { inv_ok H. split; [|split; [|done]]; eapply set_tree_frame; eauto. }
  inv_ok H.
  apply IH in E as (A1 & B1 & C1); [|lia].
  apply IH in E0 as (A2 & B2 & C2); [|lia].
  apply set_tree_frame in E3 as [A3 B3].
  split; [eauto using same_shape_trans|]. split; [|simpl; congruence].
  eauto 8 using outside_kept_trans, outside_kept_left, outside_kept_right.
Qed.

(** ** Every call of the recursion fits into the buffers *)

Lemma pow2_pos k : 0 < pow2 k.
Proof. induction k; simpl; lia. Qed.

Lemma midpoint lo hi :
  0 <= lo → lo < hi →
  2 * ((lo + hi) ÷ 2) <= lo + hi < 2 * ((lo + hi) ÷ 2) + 2.
Proof.
  intros H1 H2. rewrite Z.quot_div_nonneg by lia.
  pose proof (Z.div_mod (lo + hi) 2 ltac:(lia)).
  pose proof (Z.mod_pos_bound (lo + hi) 2 ltac:(lia)). lia.
Qed.

Lemma fits_node B node lo hi : fits B node lo hi → 0 <= node < B - 1.
Proof.
  intros (Hn & _ & _ & k & _ & Hk). pose proof (pow2_pos k). nia.
Qed.

Lemma fits_lo B node lo hi : fits B node lo hi → 0 <= lo.
Proof. by intros (_ & H & _). Qed.

Lemma fits_children B node lo hi :
  fits B node lo hi → lo < hi →
  fits B (node * 2 + 1) lo ((lo + hi) ÷ 2) ∧
  fits B (node * 2 + 2) ((lo + hi) ÷ 2 + 1) hi ∧
  node * 2 + 2 < B.
Proof.
  intros (Hn & Hlo & _ & k & Hk1 & Hk2) Hlt.
  pose proof (midpoint lo hi Hlo Hlt) as Hm.
  destruct k as [|k]; simpl in *; [lia|].
  pose proof (pow2_pos k) as Hp.
  split; [|split].
  - repeat (split; [lia|]). exists k. split; [lia|nia].
  - repeat (split; [lia|]). exists k. split; [lia|nia].
  - nia.
Qed.

Lemma pow2_cover N : 0 < N → ∃ k : nat, N <= pow2 k ∧ pow2 k < 2 * N.
Proof.
  intros HN. rewrite <- (Z2Nat.id N) by lia.
  assert (Hn : (0 < Z.to_nat N)%nat) by lia. revert Hn.
  generalize (Z.to_nat N) as n. clear.
  induction n as [|n IH]; intros Hn; [lia|].
  destruct n as [|n].
  - exists O. simpl. lia.
  - destruct IH as (k & H1 & H2); [lia|].
    destruct (Z.eq_dec (pow2 k) (Z.of_nat (S n))) as [E|E].
    + exists (S k). simpl. lia.
    + exists k. lia.
Qed.

Lemma fits_root N : 0 < N → fits (4 * N) 0 0 (N - 1).
Proof.
  intros HN. destruct (pow2_cover N HN) as (k & H1 & H2).
  repeat (split; [lia|]). exists k. lia.
Qed.

(** A branch of the recursion that is neither outside nor fully inside the
    requested range is at an internal node. *)
Lemma partial_internal (a b lo hi : Z) :
  lo <= hi →
  (a >? hi) || (b <? lo) = false →
  (a <=? lo) && (hi <=? b) = false →
  lo < hi.
Proof.
  intros Hle H1 H2.
  apply orb_false_iff in H1 as [H1a H1b].
  rewrite Z.gtb_ltb in H1a. apply Z.ltb_ge in H1a, H1b.
  apply andb_false_iff in H2 as [H2|H2]; apply Z.leb_gt in H2; lia.
Qed.

Lemma push_down_total r s :
  in_buf (lazy s) r → in_buf (lazy s) (r * 2 + 1) → in_buf (lazy s) (r * 2 + 2) →
  ∃ s', push_down r (r * 2 + 1) (r * 2 + 2) s = Ok s'.
Proof.
  intros H0 H1 H2. unfold push_down.
  rewrite load_in by done. cbn [bind].
  destruct (negb (rd (lazy s) r =? nullv)); [|eauto].
  rewrite store_in by done. cbn [bind].
  rewrite store_in by (unfold in_buf in *; rewrite length_insert; lia).
  cbn [bind].
  rewrite store_in by (unfold in_buf in *; rewrite !length_insert; lia).
  cbn [bind]. eauto.
Qed.

Section Total.
Variable B : Z.

Lemma sized_shape s s' : sized B s → same_shape s s' → sized B s'.
Proof.
  unfold sized, same_shape. intros [H1 H2] (_ & _ & _ & _ & _ & H3 & H4).
  split; congruence.
Qed.

Lemma internal_query_total fuel : ∀ node lo hi s,
  fits B node lo hi → sized B s → hi - lo < Z.of_nat fuel →
  ∃ v s', internal_query fuel node lo hi s = Ok (v, s').
Proof.
  induction fuel as [|fuel IH]; intros node lo hi s Hf Hs Hfuel;
    [destruct Hf as (_ & _ & ? & _); lia|].
  pose proof (fits_node _ _ _ _ Hf) as Hn.
  destruct Hs as [Ht Hl]. simpl.
  destruct ((x s >? hi) || (y s <? lo)) eqn:Eout; [eauto|].
  destruct ((x s <=? lo) && (hi <=? y s)) eqn:Ein.
  { rewrite load_in by (unfold in_buf; lia). cbn [bind].
    destruct (rd (lazy s) node =? nullv).
    - rewrite load_in by (unfold in_buf; lia). cbn [bind]. eauto.
    - rewrite store_in by (unfold in_buf; lia). cbn [bind]. eauto. }
  assert (Hlt : lo < hi).
  { destruct Hf as (_ & _ & Hle & _). eapply partial_internal; eauto. }
  destruct (fits_children _ _ _ _ Hf Hlt) as (FL & FR & Hc).
  pose proof (midpoint lo hi (fits_lo _ _ _ _ Hf) Hlt) as Hm.
  destruct (push_down_total node s) as [s1 E1];
    try (unfold in_buf; lia).
  rewrite E1. cbn [bind].
  apply push_down_frame in E1 as [A1 _]; [|lia].
  assert (S1 : sized B s1) by (eapply sized_shape; [split|]; eauto).
  destruct (IH (node * 2 + 1) lo ((lo + hi) ÷ 2) s1) as (a & s2 & E2);
    [done|done|lia|].
  rewrite E2. cbn [bind].
  apply internal_query_frame in E2 as [A2 _]; [|lia].
  assert (S2 : sized B s2) by (eapply sized_shape; eauto).
  destruct (IH (node * 2 + 2) ((lo + hi) ÷ 2 + 1) hi s2) as (b & s3 & E3);
    [done|done|lia|].
  rewrite E3. cbn [bind]. eauto.
Qed.

Lemma internal_update_total fuel : ∀ node lo hi s,
  fits B node lo hi → sized B s → hi - lo < Z.of_nat fuel →
  ∃ s', internal_update fuel node lo hi s = Ok s'.
Proof.
  induction fuel as [|fuel IH]; intros node lo hi s Hf Hs Hfuel;
    [destruct Hf as (_ & _ & ? & _); lia|].
  pose proof (fits_node _ _ _ _ Hf) as Hn.
  destruct Hs as [Ht Hl]. simpl.
  destruct ((x s >? hi) || (y s <? lo)) eqn:Eout; [eauto|].
  destruct (lo =? hi) eqn:Eleaf.
  { rewrite store_in by (unfold in_buf; lia). cbn [bind]. eauto. }
  apply Z.eqb_neq in Eleaf.
  assert (Hlt : lo < hi) by (destruct Hf as (_ & _ & Hle & _); lia).
  destruct ((x s <=? lo) && (hi <=? y s)) eqn:Ein.
  { rewrite load_in by (unfold in_buf; lia). cbn [bind].
    rewrite store_in by (unfold in_buf; lia). cbn [bind].
    rewrite store_in by (unfold in_buf; lia). cbn [bind]. eauto. }
  destruct (fits_children _ _ _ _ Hf Hlt) as (FL & FR & Hc).
  pose proof (midpoint lo hi (fits_lo _ _ _ _ Hf) Hlt) as Hm.
  destruct (push_down_total node s) as [s1 E1];
    try (unfold in_buf; lia).
  rewrite E1. cbn [bind].
  apply push_down_frame in E1 as [A1 _]; [|lia].
  assert (S1 : sized B s1) by (eapply sized_shape; [split|]; eauto).
  destruct (IH (node * 2 + 1) lo ((lo + hi) ÷ 2) s1) as (s2 & E2);
    [done|done|lia|].
  rewrite E2. cbn [bind].
  apply internal_update_frame in E2 as [A2 _]; [|lia].
  assert (S2 : sized B s2) by (eapply sized_shape; eauto).
  destruct (IH (node * 2 + 2) ((lo + hi) ÷ 2 + 1) hi s2) as (s3 & E3);
    [done|done|lia|].
  rewrite E3. cbn [bind].
  apply internal_update_frame in E3 as [A3 _]; [|lia].
  destruct (sized_shape _ _ S2 A3) as [T3 L3].
  rewrite !load_in by (unfold in_buf; lia). cbn [bind].
  rewrite store_in by (unfold in_buf; lia). cbn [bind]. eauto.
Qed.

Lemma build_total fuel : ∀ node lo hi s,
  fits B node lo hi → sized B s → hi - lo < Z.of_nat fuel →
  hi < Z.of_nat (length (init s)) →
  ∃ s', build fuel node lo hi s = Ok s'.
Proof.
  induction fuel as [|fuel IH]; intros node lo hi s Hf Hs Hfuel Hi;
    [destruct Hf as (_ & _ & ? & _); lia|].
  pose proof (fits_node _ _ _ _ Hf) as Hn.
  destruct Hs as [Ht Hl]. simpl.
  destruct (lo =? hi) eqn:Eleaf.
  { rewrite load_in
      by (apply Z.eqb_eq in Eleaf; destruct Hf as (_ & ? & ? & _); unfold in_buf; lia).
    cbn [bind].
    rewrite store_in by (unfold in_buf; lia). cbn [bind]. eauto. }
  apply Z.eqb_neq in Eleaf.
  assert (Hlt : lo < hi) by (destruct Hf as (_ & _ & Hle & _); lia).
  destruct (fits_children _ _ _ _ Hf Hlt) as (FL & FR & Hc).
  pose proof (midpoint lo hi (fits_lo _ _ _ _ Hf) Hlt) as Hm.
  destruct (IH (node * 2 + 1) lo ((lo + hi) ÷ 2) s) as (s1 & E1);
    [done|by split|lia|lia|].
  rewrite E1. cbn [bind].
  apply build_frame in E1 as (A1 & _ & _); [|lia].
  assert (S1 : sized B s1) by (eapply sized_shape; [split|]; eauto).
  assert (I1 : init s1 = init s) by apply A1.
  destruct (IH (node * 2 + 2) ((lo + hi) ÷ 2 + 1) hi s1) as (s2 & E2);
    [done|done|lia|rewrite I1; lia|].
  rewrite E2. cbn [bind].
  apply build_frame in E2 as (A2 & _ & _); [|lia].
  destruct (sized_shape _ _ S1 A2) as [T2 L2].
  rewrite !load_in by (unfold in_buf; lia). cbn [bind].
  rewrite store_in by (unfold in_buf; lia). cbn [bind]. eauto.
Qed.
End Total.

(** ** Construction *)

Lemma new_array_length n junk : length (new_array n junk) = Z.to_nat n.
Proof. unfold new_array. by rewrite length_map, length_seq. Qed.

Lemma clear_loop (m : nat) : ∀ buf,
  (m <= length buf)%nat →
  ∃ z, foldl (fun acc i => let! z := acc in store z (Z.of_nat i) nullv)
             (Ok buf) (seq 0 m) = Ok z ∧
       length z = length buf ∧
       ∀ i, 0 <= i < Z.of_nat m → rd z i = nullv.
Proof.
  induction m as [|m IH]; intros buf Hm.
  - exists buf. simpl. split; [done|]. split; [done|]. intros; lia.
  - destruct (IH buf) as (z & Ez & Lz & Vz); [lia|].
    rewrite seq_S, foldl_app. simpl. rewrite Ez. cbn [bind].
    assert (Hin : in_buf z (Z.of_nat m)) by (unfold in_buf; lia).
    rewrite store_in by done. eexists. split; [done|].
    destruct (store_Ok z (Z.of_nat m) nullv _ (store_in _ _ _ Hin))
      as (_ & L' & V' & N').
    split; [congruence|]. intros i Hi.
    destruct (Z.eq_dec i (Z.of_nat m)) as [->|Hne]; [done|].
    rewrite N' by done. apply Vz. lia.
Qed.

Lemma clear_lazy_Ok n buf :
  0 <= n → Z.of_nat (length buf) = 4 * n →
  ∃ z, clear_lazy n buf = Ok z ∧ length z = length buf ∧
       ∀ i, in_buf z i → rd z i = nullv.
Proof.
  intros Hn Hlen. unfold clear_lazy.
  rewrite Z.shiftl_mul_pow2 by lia. change (2 ^ 2) with 4.
  destruct (clear_loop (Z.to_nat (n * 4)) buf) as (z & E & L & V); [lia|].
  exists z. split; [done|]. split; [done|].
  intros i Hi. apply V. unfold in_buf in Hi. lia.
Qed.

Lemma allocated_shape s s' : allocated s → same_shape s s' → allocated s'.
Proof.
  intros [Hl Hs] Hsh. pose proof Hsh as (E & _). unfold allocated.
  rewrite E. split; [done|]. by apply sized_shape with s.
Qed.

Lemma segment_tree_new_Ok N array junk :
  0 < N →
  (∀ a, array = Some a → Z.of_nat (length a) = N) →
  ∃ s, segment_tree_new N array junk = Ok s ∧
       len s = N ∧ allocated s ∧ no_pending_in 0 s ∧
       (∀ a, array = Some a → init s = a).
Proof.
  intros HN Ha. unfold segment_tree_new. cbn [len lazy].
  destruct (clear_lazy_Ok N (new_array (4 * N) junk)) as (z & Ez & Lz & Vz);
    [lia|rewrite new_array_length; lia|].
  rewrite Ez. cbn [bind]. rewrite new_array_length in Lz.
  set (s0 := set_lazy _ z).
  assert (A0 : allocated s0).
  { split; [done|]. split; simpl; [rewrite new_array_length|]; lia. }
  assert (P0 : no_pending_in 0 s0) by (intros i _ Hi; by apply Vz).
  destruct array as [a|].
  - destruct (build_total (4 * N) (Z.to_nat N) 0 0 (N - 1) (set_init s0 a))
      as [s E].
    + by apply fits_root.
    + apply A0.
    + lia.
    + simpl. rewrite (Ha a eq_refl). lia.
    + exists s. split; [done|].
      apply build_frame in E as (Sh & _ & Lz'); [|lia].
      split; [apply Sh|]. split; [|split].
      * eapply allocated_shape; [|exact Sh]. exact A0.
      * intros i Hd Hi. rewrite Lz' in *. by apply Vz.
      * intros a' [= <-]. apply Sh.
  - exists s0. repeat split; try done; try apply A0.
Qed.

Lemma query_allocated lo hi s v s' :
  allocated s → query lo hi s = Ok (v, s') → allocated s'.
Proof.
  intros Ha H. unfold query in H.
  apply internal_query_frame in H as [Sh _]; [|lia].
  eapply allocated_shape; [|exact Sh]. done.
Qed.

Lemma update_allocated lo hi v s s' :
  allocated s → update lo hi v s = Ok s' → allocated s'.
Proof.
  intros Ha H. unfold update in H.
  apply internal_update_frame in H as [Sh _]; [|lia].
  eapply allocated_shape; [|exact Sh]. done.
Qed.

Lemma reachable_allocated s : reachable s → allocated s.
Proof.
  induction 1 as [N array junk s HN Ha E|idx s v s' _ IH _ E
                 |lo hi s v s' _ IH _ _ _ E|idx v s s' _ IH _ E
                 |lo hi v s s' _ IH _ _ _ E].
  - destruct (segment_tree_new_Ok N array junk HN Ha) as (s0 & E0 & _ & A & _).
    congruence.
  - eapply query_allocated; eauto.
  - eapply query_allocated; eauto.
  - eapply update_allocated; eauto.
  - eapply update_allocated; eauto.
Qed.

Lemma query_total lo hi s :
  allocated s → ∃ v s', query lo hi s = Ok (v, s').
Proof.
  intros [Hl Hs]. unfold query.
  apply internal_query_total with (B := 4 * len s); simpl.
  - by apply fits_root.
  - done.
  - lia.
Qed.

Lemma update_total lo hi v s :
  allocated s → ∃ s', update lo hi v s = Ok s'.
Proof.
  intros [Hl Hs]. unfold update.
  apply internal_update_total with (B := 4 * len s); simpl.
  - by apply fits_root.
  - done.
  - lia.
Qed.

(** ** [qval] describes [internal_query] *)

Lemma inside_same_left r s s' :
  inside_same r s s' → inside_same (r * 2 + 1) s s'.
Proof. intros H i Hi. apply H. by apply desc_left. Qed.

Lemma inside_same_right r s s' :
  inside_same r s s' → inside_same (r * 2 + 2) s s'.
Proof. intros H i Hi. apply H. by apply desc_right. Qed.

Lemma inside_same_trans r s1 s2 s3 :
  inside_same r s1 s2 → inside_same r s2 s3 → inside_same r s1 s3.
Proof.
  intros H1 H2 i Hi. destruct (H1 i Hi), (H2 i Hi). split; congruence.
Qed.

(** A change confined to one child's subtree is invisible in the other's. *)
Lemma kept_left_same_right r s s' :
  0 <= r → outside_kept (r * 2 + 1) s s' → inside_same (r * 2 + 2) s s'.
Proof. intros Hr H i Hi. apply H. intros Hl. by apply (desc_siblings r i). Qed.

Lemma kept_right_same_left r s s' :
  0 <= r → outside_kept (r * 2 + 2) s s' → inside_same (r * 2 + 1) s s'.
Proof. intros Hr H i Hi. apply H. intros Hl. by apply (desc_siblings r i). Qed.

Lemma set_tree_same_left r s v t :
  0 <= r → store (tree s) r v = Ok t → inside_same (r * 2 + 1) s (set_tree s t).
Proof.
  intros Hr H. apply store_Ok in H as (_ & _ & _ & H).
  intros i Hi. simpl. split; [|done].
  apply H. apply desc_ge in Hi; lia.
Qed.

Lemma set_tree_same_right r s v t :
  0 <= r → store (tree s) r v = Ok t → inside_same (r * 2 + 2) s (set_tree s t).
Proof.
  intros Hr H. apply store_Ok in H as (_ & _ & _ & H).
  intros i Hi. simpl. split; [|done].
  apply H. apply desc_ge in Hi; lia.
Qed.

Lemma qval_ext fuel a b : ∀ node lo hi inh s s',
  inside_same node s s' →
  qval fuel a b node lo hi inh s' = qval fuel a b node lo hi inh s.
Proof.
  induction fuel as [|fuel IH]; intros node lo hi inh s s' H; [done|].
  simpl. destruct (H node (desc_self node)) as [Ht Hl]. rewrite Ht, Hl.
  rewrite (IH (node * 2 + 1) _ _ _ s s') by (by apply inside_same_left).
  rewrite (IH (node * 2 + 2) _ _ _ s s') by (by apply inside_same_right).
  done.
Qed.

(** The scalar fields play no part in [qval]. *)
Lemma qval_set_range fuel a b node lo hi inh s p q :
  qval fuel a b node lo hi inh (set_range s p q) =
  qval fuel a b node lo hi inh s.
Proof. by apply qval_ext. Qed.

(** After a push-down at [r], a child without an inherited value reads
    what it would have read before with the value of [r] inherited. *)
Lemma qval_push_down fuel a b r c lo hi s s1 :
  0 <= r → c = r * 2 + 1 ∨ c = r * 2 + 2 →
  push_down r (r * 2 + 1) (r * 2 + 2) s = Ok s1 →
  qval fuel a b c lo hi nullv s1 = qval fuel a b c lo hi (rd (lazy s) r) s.
Proof.
  intros Hr Hc H.
  apply push_down_Ok in H as (_ & Ht & _ & _ & Hnull & Hset & Hoth); [|done].
  destruct fuel as [|fuel]; [done|]. simpl.
  assert (Hdeep : ∀ g, g = c * 2 + 1 ∨ g = c * 2 + 2 → inside_same g s s1).
  { intros g Hg i Hi. rewrite Ht. split; [done|].
    apply desc_ge in Hi; [|lia]. apply Hoth; lia. }
  rewrite Ht.
  rewrite (qval_ext fuel a b (c * 2 + 1) _ _ _ s s1) by (apply Hdeep; lia).
  rewrite (qval_ext fuel a b (c * 2 + 2) _ _ _ s s1) by (apply Hdeep; lia).
  destruct (rd (lazy s) r =? nullv) eqn:E.
  - apply Z.eqb_eq in E. rewrite (Hnull E). done.
  - apply Z.eqb_neq in E. destruct (Hset E) as [HL HR].
    replace (rd (lazy s1) c) with (rd (lazy s) r)
      by (destruct Hc; subst c; congruence).
    done.
Qed.

(** [internal_query] returns [qval] of the state it starts from, and leaves
    a state on which [qval] is that same value. *)
Lemma internal_query_qval fuel : ∀ node lo hi s v s',
  0 <= node →
  internal_query fuel node lo hi s = Ok (v, s') →
  v = qval fuel (x s) (y s) node lo hi nullv s ∧
  qval fuel (x s) (y s) node lo hi nullv s' = v.
Proof.
  induction fuel as [|fuel IH]; intros node lo hi s v s' Hn H;
    [discriminate|].
  simpl in H. simpl.
  destruct ((x s >? hi) || (y s <? lo)); [by inv_ok H|].
  destruct ((x s <=? lo) && (hi <=? y s)).
  { apply bind_Ok in H as (l & El & H). apply load_Ok in El as [_ <-].
    destruct (rd (lazy s) node =? nullv) eqn:E.
    - inv_ok H. apply load_Ok in E0 as [_ <-]. by rewrite E.
    - inv_ok H. simpl. by rewrite E. }
  apply bind_Ok in H as (s1 & E & H).
  apply bind_Ok in H as ([va s2] & E0 & H).
  apply bind_Ok in H as ([vb s3] & E1 & H).
  inv_ok H.
  pose proof (push_down_Ok _ _ _ Hn E) as (Sh1 & _ & _ & Hcl & _).
  pose proof (internal_query_frame fuel (node * 2 + 1) _ _ _ _ _ ltac:(lia) E0)
    as [Sh2 K2].
  pose proof (internal_query_frame fuel (node * 2 + 2) _ _ _ _ _ ltac:(lia) E1)
    as [Sh3 K3].
  assert (X1 : x s1 = x s ∧ y s1 = y s) by (split; apply Sh1).
  assert (X2 : x s2 = x s ∧ y s2 = y s).
  { destruct X1. split; [transitivity (x s1)|transitivity (y s1)];
      try done; apply Sh2. }
  apply IH in E0 as [Va Pa]; [|lia].
  apply IH in E1 as [Vb Pb]; [|lia].
  destruct X1 as [X1 Y1]. destruct X2 as [X2 Y2].
  rewrite X1, Y1 in Va, Pa. rewrite X2, Y2 in Vb, Pb.
  split.
  - rewrite <- (qval_push_down fuel _ _ node (node * 2 + 1) _ _ s s1)
      by (done || lia).
    rewrite <- (qval_push_down fuel _ _ node (node * 2 + 2) _ _ s s1)
      by (done || lia).
    rewrite <- Va. f_equal.
    rewrite Vb. apply qval_ext. by apply kept_left_same_right.
  - assert (Hnode : rd (lazy s') node = nullv).
    { rewrite <- Hcl.
      transitivity (rd (lazy s2) node).
      - apply K3. by apply desc_not_parent_r.
      - apply K2. by apply desc_not_parent_l. }
    rewrite Hnode. simpl. f_equal; [|done].
    rewrite <- Pa. apply qval_ext. by apply kept_right_same_left.
Qed.

(** An update of [[x, y]] does not change what a query of a range that
    is disjoint from [[x, y]] reads. *)
Lemma internal_update_disjoint fuel a b : ∀ node lo hi s s',
  0 <= node →
  b < x s ∨ y s < a →
  internal_update fuel node lo hi s = Ok s' →
  qval fuel a b node lo hi nullv s' = qval fuel a b node lo hi nullv s.
Proof.
  induction fuel as [|fuel IH]; intros node lo hi s s' Hn Hdis H;
    [discriminate|].
  simpl in H. simpl.
  destruct ((x s >? hi) || (y s <? lo)) eqn:Eout; [by inv_ok H|].
  apply orb_false_iff in Eout as [O1 O2].
  rewrite Z.gtb_ltb in O1. apply Z.ltb_ge in O1, O2.
  destruct ((a >? hi) || (b <? lo)) eqn:Qout; [done|].
  apply orb_false_iff in Qout as [Q1 Q2].
  rewrite Z.gtb_ltb in Q1. apply Z.ltb_ge in Q1, Q2.
  destruct (lo =? hi) eqn:Eleaf.
  { apply Z.eqb_eq in Eleaf. lia. }
  destruct ((x s <=? lo) && (hi <=? y s)) eqn:Ein.
  { apply andb_true_iff in Ein as [I1 I2].
    apply Z.leb_le in I1, I2. lia. }
  assert (Qin : (a <=? lo) && (hi <=? b) = false).
  { apply andb_false_iff.
    destruct (Z.leb_spec a lo); [|by left].
    destruct (Z.leb_spec hi b); [|by right]. lia. }
  rewrite Qin.
  apply bind_Ok in H as (s1 & E & H).
  apply bind_Ok in H as (s2 & E0 & H).
  apply bind_Ok in H as (s3 & E1 & H).
  apply bind_Ok in H as (ta & E2 & H).
  apply bind_Ok in H as (tb & E3 & H).
  apply bind_Ok in H as (t & E4 & H).
  inv_ok H.
  pose proof (push_down_Ok _ _ _ Hn E) as (Sh1 & _ & _ & Hcl & _).
  pose proof (internal_update_frame fuel (node * 2 + 1) _ _ _ _ ltac:(lia) E0)
    as [Sh2 K2].
  pose proof (internal_update_frame fuel (node * 2 + 2) _ _ _ _ ltac:(lia) E1)
    as [Sh3 K3].
  assert (D1 : b < x s1 ∨ y s1 < a).
  { destruct Sh1 as (_ & -> & -> & _). done. }
  assert (D2 : b < x s2 ∨ y s2 < a).
  { destruct Sh2 as (_ & -> & -> & _). done. }
  apply IH in E0; [|lia|done]. apply IH in E1; [|lia|done].
  assert (Hnode : rd (lazy s3) node = nullv).
  { rewrite <- Hcl.
    transitivity (rd (lazy s2) node).
    - apply K3. by apply desc_not_parent_r.
    - apply K2. by apply desc_not_parent_l. }
  simpl. rewrite Hnode. simpl.
  rewrite <- (qval_push_down fuel _ _ node (node * 2 + 1) _ _ s s1)
    by (done || lia).
  rewrite <- (qval_push_down fuel _ _ node (node * 2 + 2) _ _ s s1)
    by (done || lia).
  f_equal.
  - rewrite <- E0.
    transitivity (qval fuel a b (node * 2 + 1) lo ((lo + hi) ÷ 2) nullv s3).
    + apply qval_ext. eapply set_tree_same_left; eauto.
    + apply qval_ext. by apply kept_right_same_left.
  - transitivity (qval fuel a b (node * 2 + 2) ((lo + hi) ÷ 2 + 1) hi nullv s3).
    + apply qval_ext. eapply set_tree_same_right; eauto.
    + rewrite E1. apply qval_ext. by apply kept_left_same_right.
Qed.

(** ** Facts about [merge] and the range tests *)

Lemma merge_nullv_l v : nullv <= v → merge nullv v = v.
Proof.
  intros H. unfold merge. rewrite Z.gtb_ltb.
  destruct (Z.ltb_spec v nullv); [lia|done].
Qed.

Lemma merge_nullv_r v : nullv <= v → merge v nullv = v.
Proof.
  intros H. unfold merge. rewrite Z.gtb_ltb.
  destruct (Z.ltb_spec nullv v); [done|lia].
Qed.

Lemma outside_false a b lo hi :
  a <= hi → lo <= b → (a >? hi) || (b <? lo) = false.
Proof.
  intros H1 H2. apply orb_false_iff. rewrite Z.gtb_ltb.
  split; apply Z.ltb_ge; lia.
Qed.

Lemma outside_true a b lo hi :
  hi < a ∨ b < lo → (a >? hi) || (b <? lo) = true.
Proof.
  intros H. apply orb_true_iff. rewrite Z.gtb_ltb.
  destruct H; [left|right]; apply Z.ltb_lt; lia.
Qed.

Lemma inside_true a b lo hi :
  a <= lo → hi <= b → (a <=? lo) && (hi <=? b) = true.
Proof. intros H1 H2. apply andb_true_iff. split; apply Z.leb_le; lia. Qed.

Lemma inside_false a b lo hi :
  lo < a ∨ b < hi → (a <=? lo) && (hi <=? b) = false.
Proof.
  intros H. apply andb_false_iff.
  destruct H; [left|right]; apply Z.leb_gt; lia.
Qed.

Lemma qval_outside fuel a b node lo hi inh s :
  hi < a ∨ b < lo → qval fuel a b node lo hi inh s = nullv.
Proof.
  intros H. destruct fuel; [done|]. simpl. by rewrite outside_true.
Qed.

(** An inverted request reads the sentinel everywhere. *)
Lemma qval_inverted fuel a b : ∀ node lo hi inh s,
  b < a → 0 <= lo → lo <= hi →
  qval fuel a b node lo hi inh s = nullv.
Proof.
  induction fuel as [|fuel IH]; intros node lo hi inh s Hab Hlo Hle; [done|].
  simpl.
  destruct ((a >? hi) || (b <? lo)) eqn:Eout; [done|].
  rewrite inside_false by lia.
  assert (Hlt : lo < hi).
  { apply (partial_internal a b); [done|done|]. apply inside_false. lia. }
  pose proof (midpoint lo hi Hlo Hlt).
  rewrite !IH by lia. done.
Qed.

(** Below a node with a pending value [inh], a point query reads [inh]. *)
Lemma qval_inherit fuel i : ∀ node lo hi inh s,
  inh ≠ nullv → nullv <= inh → 0 <= lo → lo <= i <= hi →
  hi - lo < Z.of_nat fuel →
  qval fuel i i node lo hi inh s = inh.
Proof.
  induction fuel as [|fuel IH]; intros node lo hi inh s Hne Hge Hlo Hi Hf;
    [lia|].
  simpl. rewrite outside_false by lia.
  apply Z.eqb_neq in Hne. rewrite Hne. cbn iota. rewrite Hne.
  destruct (Z.eq_dec lo hi) as [->|Hlh].
  { rewrite inside_true by lia. done. }
  rewrite inside_false by lia.
  pose proof (midpoint lo hi Hlo ltac:(lia)) as Hm.
  apply Z.eqb_neq in Hne.
  destruct (Z_le_gt_dec i ((lo + hi) ÷ 2)).
  - rewrite IH by (done || lia).
    rewrite qval_outside by lia. by apply merge_nullv_r.
  - rewrite (IH (node * 2 + 2)) by (done || lia).
    rewrite qval_outside by lia. by apply merge_nullv_l.
Qed.

Section Leaves.
Variable B : Z.

Lemma no_pending_node node lo hi s :
  fits B node lo hi → Z.of_nat (length (lazy s)) = B →
  no_pending_in node s → rd (lazy s) node = nullv.
Proof.
  intros Hf Hl Hp. apply Hp; [apply desc_self|].
  apply fits_node in Hf. unfold in_buf. lia.
Qed.

Lemma no_pending_left node s :
  no_pending_in node s → no_pending_in (node * 2 + 1) s.
Proof. intros H i Hi. apply H. by apply desc_left. Qed.

Lemma no_pending_right node s :
  no_pending_in node s → no_pending_in (node * 2 + 2) s.
Proof. intros H i Hi. apply H. by apply desc_right. Qed.

Lemma no_pending_same node s s' :
  inside_same node s s' → length (lazy s') = length (lazy s) →
  no_pending_in node s → no_pending_in node s'.
Proof.
  intros Hs Hl Hp i Hd Hi. destruct (Hs i Hd) as [_ ->].
  apply Hp; [done|]. unfold in_buf in *. by rewrite <- Hl.
Qed.

(** After [build], a point query below [node] reads the initial value of
    its index. *)
Lemma build_leaves fuel i : ∀ node lo hi s s',
  build fuel node lo hi s = Ok s' →
  fits B node lo hi → Z.of_nat (length (lazy s)) = B →
  no_pending_in node s →
  lo <= i <= hi → nullv <= rd (init s) i →
  qval fuel i i node lo hi nullv s' = rd (init s) i.
Proof.
  induction fuel as [|fuel IH];
    intros node lo hi s s' H Hf Hl Hp Hi Hv; [discriminate|].
  pose proof (no_pending_node _ _ _ _ Hf Hl Hp) as Hnode.
  pose proof (fits_node _ _ _ _ Hf) as Hn.
  simpl in H. simpl. rewrite outside_false by lia.
  destruct (lo =? hi) eqn:Eleaf.
  { apply Z.eqb_eq in Eleaf.
    apply bind_Ok in H as (v & E1 & H). apply bind_Ok in H as (t & E2 & H).
    inv_ok H. simpl. rewrite Hnode, ?Z.eqb_refl.
    rewrite inside_true by lia.
    apply load_Ok in E1 as [_ <-]. apply store_Ok in E2 as (_ & _ & -> & _).
    f_equal. lia. }
  apply Z.eqb_neq in Eleaf.
  assert (Hlt : lo < hi) by (destruct Hf as (_ & _ & ? & _); lia).
  pose proof (midpoint lo hi (fits_lo _ _ _ _ Hf) Hlt) as Hm.
  destruct (fits_children _ _ _ _ Hf Hlt) as (FL & FR & _).
  apply bind_Ok in H as (s1 & E1 & H).
  apply bind_Ok in H as (s2 & E2 & H).
  apply bind_Ok in H as (ta & E3 & H).
  apply bind_Ok in H as (tb & E4 & H).
  apply bind_Ok in H as (t & E5 & H).
  inv_ok H.
  pose proof (build_frame fuel (node * 2 + 1) _ _ _ _ ltac:(lia) E1)
    as (Sh1 & K1 & L1).
  pose proof (build_frame fuel (node * 2 + 2) _ _ _ _ ltac:(lia) E2)
    as (Sh2 & K2 & L2).
  assert (I1 : init s1 = init s) by apply Sh1.
  simpl. rewrite L2, L1, Hnode, ?Z.eqb_refl.
  rewrite inside_false by lia.
  destruct (Z_le_gt_dec i ((lo + hi) ÷ 2)).
  - rewrite (qval_outside fuel i i (node * 2 + 2)) by lia.
    rewrite merge_nullv_r.
    + transitivity (qval fuel i i (node * 2 + 1) lo ((lo + hi) ÷ 2) nullv s1).
      * transitivity
          (qval fuel i i (node * 2 + 1) lo ((lo + hi) ÷ 2) nullv s2).
        -- apply qval_ext. eapply set_tree_same_left; [lia|eauto].
        -- apply qval_ext. apply kept_right_same_left; [lia|done].
      * apply IH; auto using no_pending_left. lia.
    + erewrite qval_ext
        by (eapply inside_same_trans;
            [apply kept_right_same_left; [lia|exact K2]
            |eapply set_tree_same_left; [lia|eauto]]).
      erewrite IH; eauto using no_pending_left. lia.
  - rewrite (qval_outside fuel i i (node * 2 + 1)) by lia.
    assert (Q : qval fuel i i (node * 2 + 2) ((lo + hi) ÷ 2 + 1) hi nullv
                     (set_tree s2 t) = rd (init s) i).
    { transitivity
        (qval fuel i i (node * 2 + 2) ((lo + hi) ÷ 2 + 1) hi nullv s2).
      - apply qval_ext. eapply set_tree_same_right; [lia|eauto].
      - rewrite <- I1. apply IH; try done; try lia.
        + congruence.
        + intros j Hd Hj. rewrite L1 in *.
          by apply (no_pending_right node s Hp).
        + by rewrite I1. }
    rewrite Q. by apply merge_nullv_l.
Qed.

(** On a subtree without pending values, an update makes every point
    query inside the updated range read the new value. *)
Lemma internal_update_assigns fuel i : ∀ node lo hi s s',
  internal_update fuel node lo hi s = Ok s' →
  fits B node lo hi → Z.of_nat (length (lazy s)) = B →
  no_pending_in node s →
  hi - lo < Z.of_nat fuel →
  nullv < val s →
  lo <= i <= hi → x s <= i <= y s →
  qval fuel i i node lo hi nullv s' = val s.
Proof.
  induction fuel as [|fuel IH];
    intros node lo hi s s' H Hf Hl Hp Hfu Hv Hi Hxy; [discriminate|].
  pose proof (no_pending_node _ _ _ _ Hf Hl Hp) as Hnode.
  pose proof (fits_node _ _ _ _ Hf) as Hn.
  simpl in H. simpl. rewrite outside_false in * by lia.
  destruct (lo =? hi) eqn:Eleaf.
  { apply Z.eqb_eq in Eleaf.
    apply bind_Ok in H as (t & E1 & H). inv_ok H.
    simpl. rewrite Hnode, ?Z.eqb_refl. rewrite inside_true by lia.
    by apply store_Ok in E1 as (_ & _ & -> & _). }
  apply Z.eqb_neq in Eleaf.
  assert (Hlt : lo < hi) by (destruct Hf as (_ & _ & ? & _); lia).
  pose proof (midpoint lo hi (fits_lo _ _ _ _ Hf) Hlt) as Hm.
  pose proof (fits_lo _ _ _ _ Hf) as Hlo.
  destruct (fits_children _ _ _ _ Hf Hlt) as (FL & FR & _).
  rewrite (inside_false i i) by lia.
  destruct ((x s <=? lo) && (hi <=? y s)) eqn:Ein.
  { apply bind_Ok in H as (l & E1 & H). apply bind_Ok in H as (z & E2 & H).
    apply bind_Ok in H as (t & E3 & H). inv_ok H.
    apply load_Ok in E1 as [_ <-]. rewrite Hnode in E2.
    rewrite merge_nullv_l in E2 by lia.
    apply store_Ok in E2 as (_ & _ & V2 & _).
    simpl. rewrite V2.
    assert (Hne : val s ≠ nullv) by lia.
    destruct (Z_le_gt_dec i ((lo + hi) ÷ 2)).
    - rewrite qval_inherit by (done || lia).
      rewrite qval_outside by lia. apply merge_nullv_r. lia.
    - rewrite (qval_inherit fuel i (node * 2 + 2)) by (done || lia).
      rewrite qval_outside by lia. apply merge_nullv_l. lia. }
  apply bind_Ok in H as (s1 & E & H).
  apply bind_Ok in H as (s2 & E0 & H).
  apply bind_Ok in H as (s3 & E1 & H).
  apply bind_Ok in H as (ta & E2 & H).
  apply bind_Ok in H as (tb & E3 & H).
  apply bind_Ok in H as (t & E4 & H).
  inv_ok H.
  pose proof (push_down_Ok node _ _ ltac:(lia) E) as (_ & _ & _ & _ & Hid & _).
  rewrite (Hid Hnode) in *. clear Hid E.
  pose proof (internal_update_frame fuel (node * 2 + 1) _ _ _ _ ltac:(lia) E0)
    as [Sh2 K2].
  pose proof (internal_update_frame fuel (node * 2 + 2) _ _ _ _ ltac:(lia) E1)
    as [Sh3 K3].
  pose proof Sh2 as (_ & X2 & Y2 & V2 & _ & _ & L2).
  assert (Hn3 : rd (lazy s3) node = nullv).
  { rewrite <- Hnode. transitivity (rd (lazy s2) node).
    - apply K3. apply desc_not_parent_r. lia.
    - apply K2. apply desc_not_parent_l. lia. }
  simpl. rewrite Hn3, ?Z.eqb_refl.
  destruct (Z_le_gt_dec i ((lo + hi) ÷ 2)).
  - rewrite (qval_outside fuel i i (node * 2 + 2)) by lia.
    assert (Q : qval fuel i i (node * 2 + 1) lo ((lo + hi) ÷ 2) nullv
                     (set_tree s3 t) = val s).
    { transitivity
        (qval fuel i i (node * 2 + 1) lo ((lo + hi) ÷ 2) nullv s2).
      - apply qval_ext. eapply inside_same_trans.
        + apply kept_right_same_left; [lia|exact K3].
        + eapply set_tree_same_left; [lia|eauto].
      - apply IH; auto using no_pending_left; lia. }
    rewrite Q. apply merge_nullv_r. lia.
  - rewrite (qval_outside fuel i i (node * 2 + 1)) by lia.
    assert (Q : qval fuel i i (node * 2 + 2) ((lo + hi) ÷ 2 + 1) hi nullv
                     (set_tree s3 t) = val s).
    { transitivity
        (qval fuel i i (node * 2 + 2) ((lo + hi) ÷ 2 + 1) hi nullv s3).
      - apply qval_ext. eapply set_tree_same_right; [lia|eauto].
      - rewrite <- V2. apply IH; try done; try lia.
        apply no_pending_same with s; [|done|by apply no_pending_right].
        apply kept_left_same_right; [lia|done]. }
    rewrite Q. apply merge_nullv_l. lia.
Qed.
End Leaves.

(** ** Public operations in terms of [qval] *)

Lemma rd_lookup buf i : in_buf buf i → buf !! Z.to_nat i = Some (rd buf i).
Proof.
  intros Hi. pose proof (load_in buf i Hi) as H. unfold load in H.
  destruct ((0 <=? i) && (i <? Z.of_nat (length buf))); [|discriminate].
  destruct (buf !! Z.to_nat i); [|discriminate]. congruence.
Qed.

Lemma query_qval lo hi s v s' :
  query lo hi s = Ok (v, s') →
  v = qval (Z.to_nat (len s)) lo hi 0 0 (len s - 1) nullv s ∧
  qval (Z.to_nat (len s)) lo hi 0 0 (len s - 1) nullv s' = v ∧
  len s' = len s.
Proof.
  unfold query. intros H.
  pose proof (internal_query_frame _ _ _ _ _ _ _ (Z.le_refl 0) H) as [Sh _].
  apply internal_query_qval in H as [H1 H2]; [|lia].
  simpl in H1, H2. rewrite qval_set_range in H1.
  split; [done|]. split; [done|]. apply Sh.
Qed.

Lemma segment_tree_new_build N a junk s :
  0 < N →
  segment_tree_new N (Some a) junk = Ok s →
  ∃ s0, build (Z.to_nat N) 0 0 (N - 1) s0 = Ok s ∧
        init s0 = a ∧ len s0 = N ∧ sized (4 * N) s0 ∧ no_pending_in 0 s0.
Proof.
  intros HN H. unfold segment_tree_new in H. cbn [len lazy] in H.
  apply bind_Ok in H as (z & Ez & H).
  destruct (clear_lazy_Ok N (new_array (4 * N) junk)) as (z' & Ez' & Lz & Vz);
    [lia|rewrite new_array_length; lia|].
  assert (z' = z) by congruence. subst z'.
  rewrite new_array_length in Lz.
  eexists. split; [exact H|]. simpl. repeat (split; [done|]).
  split; [split; simpl; [rewrite new_array_length|]; lia|].
  intros i _ Hi. by apply Vz.
Qed.

(** * The claims *)

Lemma demo_new : segment_tree_new 5 (Some demo_array) (fun _ => 0) = Ok demo.
Proof. reflexivity. Qed.

Lemma demo_reachable : reachable demo.
Proof.
  apply (reach_new 5 (Some demo_array) (fun _ => 0)).
  - lia.
  - intros a [= <-]. reflexivity.
  - exact demo_new.
Qed.

Lemma demo_no_pending : no_pending_in 0 demo.
Proof.
  destruct (segment_tree_new_Ok 5 (Some demo_array) (fun _ => 0))
    as (s & E & _ & _ & P & _).
  - lia.
  - intros a [= <-]. reflexivity.
  - rewrite demo_new in E. injection E as <-. exact P.
Qed.

Lemma demo_pending_reachable : reachable demo_pending.
Proof.
  apply (reach_update 0 4 7 demo); [exact demo_reachable|simpl; lia..|reflexivity].
Qed.

(** C3.  Right after construction from an array [A] of length [N > 0],
    [at(i)] returns [A[i]] for every index [0 <= i < N].  The source
    computes the buffer size [4*len] (and [len << 2]) in [int]; the
    statement is for the sizes for which that product is representable,
    [4 * N <= INT_MAX]. *)
Theorem at_after_construction N A junk :
  0 < N → 4 * N <= INT_MAX →
  Z.of_nat (length A) = N → Forall is_int A →
  ∃ s, segment_tree_new N (Some A) junk = Ok s ∧
       ∀ i, 0 <= i < N →
            ∃ v s', A !! Z.to_nat i = Some v ∧ at_ i s = Ok (v, s').
Proof.
  intros HN HB HA Hint.
  destruct (segment_tree_new_Ok N (Some A) junk HN) as (s & E & Hlen & Al & _).
  { by intros a [= <-]. }
  exists s. split; [done|]. intros i Hi.
  destruct (segment_tree_new_build N A junk s HN E) as (s0 & Eb & I0 & L0 & S0 & P0).
  destruct (query_total i i s Al) as (v & s' & Eq).
  assert (Hin : in_buf A i) by (unfold in_buf; lia).
  exists v, s'. split; [|done].
  rewrite (rd_lookup A i Hin). f_equal.
  apply query_qval in Eq as (-> & _). rewrite Hlen.
  rewrite <- I0.
  symmetry. apply build_leaves with (B := 4 * N) (s := s0); try done.
  - by apply fits_root.
  - apply S0.
  - lia.
  - rewrite I0. apply (Forall_lookup_1 _ _ _ _ Hint (rd_lookup A i Hin)).
Qed.

Lemma at_after_construction_witness :
  ∃ s, segment_tree_new 5 (Some demo_array) (fun _ => 0) = Ok s ∧
       ∀ i, 0 <= i < 5 →
            ∃ v s', demo_array !! Z.to_nat i = Some v ∧ at_ i s = Ok (v, s').
Proof.
  apply (at_after_construction 5 demo_array (fun _ => 0)).
  - lia.
  - unfold INT_MAX. lia.
  - reflexivity.
  - repeat constructor; vm_compute; discriminate.
Defined.

(** C1.  Right after construction with [N > 1], [query(0, N-1)] should be
    the merge of all of [A].  It is not: whatever the array [{a0, a1}] and
    whatever the fresh buffer holds, the answer is the merge of the
    indeterminate old content of [tree[0]] with [a0]; [a1] is never looked
    at.  From [{1, 5}] in zeroed memory the answer is [1], the maximum
    is [5]. *)
Theorem full_query_after_construction_misses_right :
  (∀ junk a0 a1,
     value (let! s := segment_tree_new 2 (Some [a0; a1]) junk in query 0 1 s)
     = Some (merge (junk 0) a0)) ∧
  value (let! s := segment_tree_new 2 (Some [1; 5]) (fun _ => 0) in query 0 1 s)
  = Some 1 ∧
  merge 1 5 = 5.
Proof. split; [|split]; reflexivity. Qed.

(** C2.  [build] should leave every internal node with the merge of its
    children [node*2 + 1] and [node*2 + 2].  Line 78 merges
    [tree[node*2]] and [tree[node*2 + 1]] instead: for [{1, 5}] in zeroed
    memory the root gets [merge(0, 1) = 1] while its children hold [1]
    and [5]. *)
Theorem build_merges_wrong_cells :
  ∃ s, segment_tree_new 2 (Some [1; 5]) (fun _ => 0) = Ok s ∧
       rd (tree s) 1 = 1 ∧ rd (tree s) 2 = 5 ∧
       rd (tree s) 0 = 1 ∧
       merge (rd (tree s) (0 * 2 + 1)) (rd (tree s) (0 * 2 + 2)) = 5.
Proof. eexists. split; [reflexivity|]. repeat split. Qed.

(** The same for any array of two cells: the root is computed from its own
    old content and the left child. *)
Lemma build_root_of_two junk a0 a1 :
  ∃ s, segment_tree_new 2 (Some [a0; a1]) junk = Ok s ∧
       rd (tree s) 0 = merge (junk 0) a0 ∧
       rd (tree s) 1 = a0 ∧ rd (tree s) 2 = a1.
Proof. eexists. split; [reflexivity|]. repeat split. Qed.

(** C4 as stated fails: on the freshly built driver array, [update(2, 2, 0)]
    lowers [at(2)] from [1] to [0], where a range-chmax would keep
    [max(0, 1) = 1]. *)
Lemma update_can_lower_an_element :
  ∃ s', value (at_ 2 demo) = Some 1 ∧
        update 2 2 0 demo = Ok s' ∧
        value (at_ 2 s') = Some 0 ∧
        Z.max 0 1 = 1 ∧ reachable demo.
Proof.
  eexists. split; [reflexivity|]. split; [reflexivity|].
  split; [reflexivity|]. split; [reflexivity|]. exact demo_reachable.
Qed.

(** C4, amended.  In a reachable state with no pending lazy value (such as
    the state right after construction), [update(lo, hi, v)] with
    [0 <= lo <= hi < N] and [v] above the sentinel makes [at(idx)] return
    [v] for every [idx] in [[lo, hi]]: the element is overwritten, so it is
    raised when [v] is larger and lowered when [v] is smaller. *)
Theorem update_overwrites_fresh s lo hi v :
  reachable s → no_pending_in 0 s →
  0 <= lo → lo <= hi → hi < len s → nullv < v →
  ∃ s', update lo hi v s = Ok s' ∧
        ∀ idx, lo <= idx <= hi → value (at_ idx s') = Some v.
Proof.
  intros Hr Hp Hlo Hle Hhi Hv.
  pose proof (reachable_allocated s Hr) as Al.
  destruct (update_total lo hi v s Al) as [s' E].
  exists s'. split; [done|]. intros idx Hidx.
  pose proof (update_allocated _ _ _ _ _ Al E) as Al'.
  destruct (query_total idx idx s' Al') as (r & s'' & Eq).
  unfold at_. rewrite Eq. simpl. f_equal.
  apply query_qval in Eq as (-> & _).
  unfold update in E.
  pose proof (internal_update_frame _ _ _ _ _ _ (Z.le_refl 0) E) as [Sh _].
  assert (Hlen : len s' = len s) by apply Sh. rewrite Hlen.
  destruct Al as [Hpos [_ Hlz]].
  apply (internal_update_assigns (4 * len s) _ idx) in E; simpl; try done;
    try lia.
  by apply fits_root.
Qed.

Lemma update_overwrites_fresh_witness :
  ∃ s', update 2 4 12 demo = Ok s' ∧
        ∀ idx, 2 <= idx <= 4 → value (at_ idx s') = Some 12.
Proof.
  apply (update_overwrites_fresh demo 2 4 12).
  - exact demo_reachable.
  - exact demo_no_pending.
  - lia.
  - lia.
  - simpl. lia.
  - vm_compute. reflexivity.
Defined.

(** C5 as stated fails: the push-down does not merge into the children's
    pending values.  After [update(3, 4, 10)] and [update(0, 4, 5)] on the
    driver array, node 2 (range [[3, 4]]) has 10 pending and the root has 5
    pending; [query(0, 0)] pushes the root's value down, and node 2 is left
    with 5, not [merge(10, 5) = 10]. *)
Lemma push_down_does_not_merge :
  ∃ s1 s2 s3 v,
    update 3 4 10 demo = Ok s1 ∧ update 0 4 5 s1 = Ok s2 ∧
    query 0 0 s2 = Ok (v, s3) ∧
    rd (lazy s2) 0 = 5 ∧ rd (lazy s2) (0 * 2 + 2) = 10 ∧
    rd (lazy s3) (0 * 2 + 2) = 5 ∧
    rd (lazy s3) (0 * 2 + 2) ≠ merge (rd (lazy s2) (0 * 2 + 2)) (rd (lazy s2) 0).
Proof.
  do 4 eexists. repeat (split; [reflexivity|]). vm_compute. discriminate.
Qed.

(** C5, amended.  Whenever a query or an update overlaps a node's range
    only partially and recurses into the children, it first runs the
    push-down step; a pending value on the node then replaces the pending
    value of each child (the child's previous pending value is discarded)
    and the node's own pending value is cleared. *)
Theorem push_down_overwrites_children node s s' :
  0 <= node →
  push_down node (node * 2 + 1) (node * 2 + 2) s = Ok s' →
  rd (lazy s) node ≠ nullv →
  (rd (lazy s') (node * 2 + 1) = rd (lazy s) node ∧
   rd (lazy s') (node * 2 + 2) = rd (lazy s) node ∧
   rd (lazy s') node = nullv ∧
   tree s' = tree s) ∧
  (∀ fuel lo hi,
     (x s >? hi) || (y s <? lo) = false →
     (x s <=? lo) && (hi <=? y s) = false →
     internal_query (S fuel) node lo hi s =
     (let! (a, s2) := internal_query fuel (node * 2 + 1) lo ((lo + hi) ÷ 2) s' in
      let! (b, s3) :=
        internal_query fuel (node * 2 + 2) ((lo + hi) ÷ 2 + 1) hi s2 in
      Ok (merge a b, s3))) ∧
  (∀ fuel lo hi,
     (x s >? hi) || (y s <? lo) = false →
     (lo =? hi) = false →
     (x s <=? lo) && (hi <=? y s) = false →
     internal_update (S fuel) node lo hi s =
     (let! s2 := internal_update fuel (node * 2 + 1) lo ((lo + hi) ÷ 2) s' in
      let! s3 := internal_update fuel (node * 2 + 2) ((lo + hi) ÷ 2 + 1) hi s2 in
      let! a := load (tree s3) (node * 2 + 1) in
      let! b := load (tree s3) (node * 2 + 2) in
      let! t := store (tree s3) node (merge a b) in
      Ok (set_tree s3 t))).
Proof.
  intros Hn H Hpend.
  pose proof (push_down_Ok node s s' Hn H) as (_ & Ht & _ & Hcl & _ & Hset & _).
  destruct (Hset Hpend) as [HL HR].
  split; [by repeat split|]. split.
  - intros fuel lo hi E1 E2. simpl. rewrite E1, E2, H. reflexivity.
  - intros fuel lo hi E1 E2 E3. simpl. rewrite E1, E2, E3, H. reflexivity.
Qed.

Lemma push_down_overwrites_children_witness :
  rd (lazy demo_pending) 0 = 7 ∧
  rd (lazy demo_pushed) 1 = 7 ∧ rd (lazy demo_pushed) 2 = 7 ∧
  rd (lazy demo_pushed) 0 = nullv.
Proof.
  destruct (push_down_overwrites_children 0 demo_pending demo_pushed)
    as [(H1 & H2 & H3 & _) _].
  - lia.
  - reflexivity.
  - vm_compute. discriminate.
  - split; [reflexivity|]. split; [exact H1|]. split; [exact H2|exact H3].
Defined.

(** C6.  Locality: in every reachable state, [update(lo, hi, v)] on an
    in-bounds range does not change what [query(a, b)] returns for an
    in-bounds range [[a, b]] disjoint from [[lo, hi]]. *)
Theorem update_locality s lo hi v a b :
  reachable s →
  0 <= lo → lo <= hi → hi < len s →
  0 <= a → a <= b → b < len s →
  b < lo ∨ hi < a →
  ∃ s1 r, update lo hi v s = Ok s1 ∧
          value (query a b s) = Some r ∧
          value (query a b s1) = Some r.
Proof.
  intros Hr Hlo Hle Hhi Ha Hab Hb Hdis.
  pose proof (reachable_allocated s Hr) as Al.
  destruct (update_total lo hi v s Al) as [s1 E].
  pose proof (update_allocated _ _ _ _ _ Al E) as Al1.
  destruct (query_total a b s Al) as (r & s' & Eq).
  destruct (query_total a b s1 Al1) as (r1 & s1' & Eq1).
  exists s1, r. split; [done|]. rewrite Eq, Eq1. simpl. split; [done|].
  f_equal.
  apply query_qval in Eq as (-> & _). apply query_qval in Eq1 as (-> & _).
  unfold update in E.
  pose proof (internal_update_frame _ _ _ _ _ _ (Z.le_refl 0) E) as [Sh _].
  assert (Hlen : len s1 = len s) by apply Sh. rewrite Hlen.
  apply (internal_update_disjoint _ a b) in E; [|lia|simpl; lia].
  rewrite E. apply qval_ext. by intros i _.
Qed.

Lemma update_locality_witness :
  ∃ s1 r, update 2 4 12 demo = Ok s1 ∧
          value (query 0 1 demo) = Some r ∧
          value (query 0 1 s1) = Some r.
Proof.
  apply (update_locality demo 2 4 12 0 1).
  - exact demo_reachable.
  - lia.
  - lia.
  - simpl. lia.
  - lia.
  - lia.
  - simpl. lia.
  - left. lia.
Defined.

(** C7.  After [update(lo, hi, v)] every query inside [[lo, hi]] should
    return at least [v].  It does not in the state reached from [{1, 2}] by
    [update(0, 1, 5)]: the later [update(0, 0, 9)] pushes the pending 5 onto
    the leaf of index 0 and then writes 9 into the leaf's [tree] cell only,
    and [query(0, 0)] prefers the stale pending 5. *)
Theorem point_update_lost_behind_pending_value :
  segment_tree_new 2 (Some [1; 2]) (fun _ => 0) = Ok pair_fresh ∧
  update 0 1 5 pair_fresh = Ok pair_covered ∧
  reachable pair_covered ∧
  update 0 0 9 pair_covered = Ok pair_point ∧
  value (query 0 0 pair_point) = Some 5 ∧
  rd (tree pair_point) 1 = 9 ∧ rd (lazy pair_point) 1 = 5.
Proof.
  split; [reflexivity|]. split; [reflexivity|].
  split; [|repeat split].
  apply (reach_update 0 1 5 pair_fresh); [|simpl; lia..|reflexivity].
  apply (reach_new 2 (Some [1; 2]) (fun _ => 0)); [lia| |reflexivity].
  intros a [= <-]. reflexivity.
Qed.

(** C8.  Idempotent read: in every reachable state, calling
    [query(lo, hi)] twice in a row on an in-bounds range returns the same
    value both times; the second call finds the state the first one left
    (tree cells written back, pending values pushed down). *)
Theorem query_twice s lo hi :
  reachable s →
  0 <= lo → lo <= hi → hi < len s →
  ∃ v s1 s2, query lo hi s = Ok (v, s1) ∧ query lo hi s1 = Ok (v, s2).
Proof.
  intros Hr Hlo Hle Hhi.
  pose proof (reachable_allocated s Hr) as Al.
  destruct (query_total lo hi s Al) as (v & s1 & E1).
  pose proof (query_allocated _ _ _ _ _ Al E1) as Al1.
  destruct (query_total lo hi s1 Al1) as (v' & s2 & E2).
  exists v, s1, s2. split; [done|]. rewrite E2. do 2 f_equal.
  apply query_qval in E1 as (_ & P1 & L1).
  apply query_qval in E2 as (-> & _).
  rewrite L1. exact P1.
Qed.

Lemma query_twice_witness :
  ∃ v s1 s2,
    query 1 3 demo_pending = Ok (v, s1) ∧ query 1 3 s1 = Ok (v, s2).
Proof.
  apply (query_twice demo_pending 1 3).
  - exact demo_pending_reachable.
  - lia.
  - lia.
  - simpl. lia.
Defined.

(** C9.  Buffer-bounds safety: for [N > 0], construction (with its build
    step) and, in every reachable state, [at], [query] and both [update]s
    with in-bounds arguments finish without ever indexing [tree] or [lazy]
    outside their [4 * N] cells.  The source computes [4*len] (and
    [len << 2]) in [int]; the statement is for the sizes for which that
    product is representable, [4 * N <= INT_MAX]. *)
Theorem buffers_suffice N A junk :
  0 < N → 4 * N <= INT_MAX → Z.of_nat (length A) = N →
  (∃ s0, segment_tree_new N (Some A) junk = Ok s0 ∧
         len s0 = N ∧
         Z.of_nat (length (tree s0)) = 4 * N ∧
         Z.of_nat (length (lazy s0)) = 4 * N) ∧
  (∀ s, reachable s →
        Z.of_nat (length (tree s)) = 4 * len s ∧
        Z.of_nat (length (lazy s)) = 4 * len s ∧
        (∀ idx, 0 <= idx < len s → ∃ v s', at_ idx s = Ok (v, s')) ∧
        (∀ lo hi, 0 <= lo → lo <= hi → hi < len s →
                  ∃ v s', query lo hi s = Ok (v, s')) ∧
        (∀ idx v, 0 <= idx < len s → ∃ s', update_point idx v s = Ok s') ∧
        (∀ lo hi v, 0 <= lo → lo <= hi → hi < len s →
                    ∃ s', update lo hi v s = Ok s')).
Proof.
  intros HN HB HA. split.
  - destruct (segment_tree_new_Ok N (Some A) junk HN)
      as (s & E & Hlen & [_ [Ht Hl]] & _).
    { by intros a [= <-]. }
    exists s. rewrite Hlen in Ht, Hl. by repeat split.
  - intros s Hr. pose proof (reachable_allocated s Hr) as Al.
    destruct Al as [Hpos [Ht Hl]].
    split; [done|]. split; [done|].
    assert (Al : allocated s) by (by split).
    split; [|split; [|split]].
    + intros idx _. by apply query_total.
    + intros lo hi _ _ _. by apply query_total.
    + intros idx v _. by apply (update_total idx idx v).
    + intros lo hi v _ _ _. by apply update_total.
Qed.

Lemma buffers_suffice_witness :
  (∃ s0, segment_tree_new 5 (Some demo_array) (fun _ => 0) = Ok s0 ∧
         len s0 = 5 ∧
         Z.of_nat (length (tree s0)) = 4 * 5 ∧
         Z.of_nat (length (lazy s0)) = 4 * 5) ∧
  (∃ s', update 0 3 9 demo_pending = Ok s').
Proof.
  destruct (buffers_suffice 5 demo_array (fun _ => 0)) as [H1 H2].
  - lia.
  - unfold INT_MAX. lia.
  - reflexivity.
  - split; [exact H1|].
    destruct (H2 demo_pending demo_pending_reachable) as (_ & _ & _ & _ & _ & H).
    apply H; simpl; lia.
Defined.

(** C10.  Inverted range at the public interface: in every reachable state,
    [query(lo, hi)] with in-bounds [hi < lo] returns the sentinel
    [nullv()]. *)
Theorem query_inverted_range s lo hi :
  reachable s →
  0 <= hi → hi < lo → lo < len s →
  ∃ s', query lo hi s = Ok (nullv, s').
Proof.
  intros Hr Hhi Hlt Hlo.
  pose proof (reachable_allocated s Hr) as Al.
  destruct (query_total lo hi s Al) as (v & s' & E).
  exists s'. rewrite E. do 2 f_equal.
  apply query_qval in E as (-> & _).
  apply qval_inverted; lia.
Qed.

Lemma query_inverted_range_witness :
  ∃ s', query 3 1 demo_pending = Ok (nullv, s').
Proof.
  apply (query_inverted_range demo_pending 3 1).
  - exact demo_pending_reachable.
  - lia.
  - lia.
  - simpl. lia.
Defined.

(** * Further properties of the code *)

(** ** The customisation points *)

(** X1.  [merge] is the maximum, so it is associative, commutative and
    idempotent; for a representable [v], [nullv()] is an identity on both
    sides (the requirement written above [nullv] in the source), and the
    merge of representable values is representable. *)
Theorem merge_contract v a b c :
  is_int v → is_int a → is_int b →
  merge v nullv = v ∧ merge nullv v = v ∧
  merge a b = Z.max a b ∧
  merge a (merge b c) = merge (merge a b) c ∧
  merge a b = merge b a ∧
  merge a a = a ∧
  is_int (merge a b).
Proof.
  intros Hv Ha Hb.
  assert (M : ∀ p q, merge p q = Z.max p q).
  { intros p q. unfold merge. rewrite Z.gtb_ltb.
    destruct (Z.ltb_spec q p); lia. }
  split; [apply merge_nullv_r, Hv|]. split; [apply merge_nullv_l, Hv|].
  rewrite !M. unfold is_int in *. repeat split; lia.
Qed.

Lemma merge_contract_witness :
  merge 7 nullv = 7 ∧ merge nullv 7 = 7 ∧
  merge 3 9 = Z.max 3 9 ∧
  merge 3 (merge 9 4) = merge (merge 3 9) 4 ∧
  merge 3 9 = merge 9 3 ∧
  merge 3 3 = 3 ∧
  is_int (merge 3 9).
Proof.
  apply (merge_contract 7 3 9 4); vm_compute; split; discriminate.
Defined.

(** ** Construction *)

Lemma new_array_rd n junk i : 0 <= i < n → rd (new_array n junk) i = junk i.
Proof.
  intros Hi. unfold rd, load. rewrite new_array_length.
  replace ((0 <=? i) && (i <? Z.of_nat (Z.to_nat n))) with true
    by (symmetry; apply andb_true_iff; split; [apply Z.leb_le|apply Z.ltb_lt]; lia).
  unfold new_array. rewrite list_lookup_fmap, lookup_seq_lt by lia.
  simpl. f_equal. lia.
Qed.

(** X2.  For [N > 0] with [4 * N] representable in [int] (the type in
    which the source computes [4*len] and [len << 2]), a finished
    construction leaves a tree of size [N] with two buffers of [4 * N]
    cells and no pending value in any cell of [lazy]; without an initial
    array the cells of [tree] still hold what the allocator handed out. *)
Theorem construction_postcondition N array junk s :
  0 < N → 4 * N <= INT_MAX →
  segment_tree_new N array junk = Ok s →
  size s = N ∧
  Z.of_nat (length (tree s)) = 4 * N ∧
  Z.of_nat (length (lazy s)) = 4 * N ∧
  (∀ i, 0 <= i < 4 * N → rd (lazy s) i = nullv) ∧
  (array = None → ∀ i, 0 <= i < 4 * N → rd (tree s) i = junk i).
Proof.
  intros HN HB H. unfold segment_tree_new in H. cbn [len lazy] in H.
  apply bind_Ok in H as (z & Ez & H).
  destruct (clear_lazy_Ok N (new_array (4 * N) junk)) as (z' & Ez' & Lz & Vz);
    [lia|rewrite new_array_length; lia|].
  assert (z' = z) by congruence. subst z'.
  rewrite new_array_length in Lz.
  assert (Vz' : ∀ i, 0 <= i < 4 * N → rd z i = nullv).
  { intros i Hi. apply Vz. unfold in_buf. lia. }
  destruct array as [a|].
  - apply build_frame in H as (Sh & _ & Lz'); [|lia].
    destruct Sh as (Hlen & _ & _ & _ & _ & Ht & _). simpl in *.
    rewrite new_array_length in Ht.
    split; [exact Hlen|]. split; [lia|]. rewrite Lz'.
    split; [lia|]. split; [exact Vz'|]. discriminate.
  - inv_ok H. simpl. rewrite new_array_length.
    split; [done|]. split; [lia|]. split; [lia|]. split; [exact Vz'|].
    intros _ i Hi. by apply new_array_rd.
Qed.

Lemma construction_postcondition_witness :
  size demo_raw = 5 ∧
  Z.of_nat (length (tree demo_raw)) = 4 * 5 ∧
  Z.of_nat (length (lazy demo_raw)) = 4 * 5 ∧
  (∀ i, 0 <= i < 4 * 5 → rd (lazy demo_raw) i = nullv) ∧
  (@None (list Z) = None →
   ∀ i, 0 <= i < 4 * 5 → rd (tree demo_raw) i = 100 + i).
Proof.
  apply (construction_postcondition 5 None (fun i => 100 + i) demo_raw).
  - lia.
  - unfold INT_MAX. lia.
  - reflexivity.
Defined.

(** X3.  With [N = 0] and an initial array the construction cannot
    finish: [build(0, 0, -1)] splits at [(0 + -1) / 2 = 0] and writes
    [tree[1]] of a buffer without cells.  Whatever depth the recursion is
    allowed, [build] does not return; with a non-empty array and depth at
    least two the failure is that out-of-bounds write. *)
Theorem build_on_empty_tree fuel s :
  tree s = [] →
  (∀ s', build fuel 0 0 (0 - 1) s ≠ Ok s') ∧
  ((2 <= fuel)%nat → init s ≠ [] →
   build fuel 0 0 (0 - 1) s = Err OutOfBounds).
Proof.
  intros Ht.
  assert (Hst : ∀ v, store (tree s) (0 * 2 + 1) v = Err OutOfBounds)
    by (intros v; rewrite Ht; reflexivity).
  split.
  - intros s' H. destruct fuel as [|[|fuel]]; try discriminate H.
    simpl in H. destruct (load (init s) 0); simpl in H; [|discriminate].
    rewrite Hst in H. discriminate.
  - intros Hf Hi. destruct fuel as [|[|fuel]]; try lia.
    simpl. destruct (init s) as [|a0 rest] eqn:E; [done|].
    unfold load. simpl. rewrite Hst. reflexivity.
Qed.

Lemma build_on_empty_tree_witness :
  (∀ s', build 3 0 0 (0 - 1) (set_init blank [4]) ≠ Ok s') ∧
  ((2 <= 3)%nat → init (set_init blank [4]) ≠ [] →
   build 3 0 0 (0 - 1) (set_init blank [4]) = Err OutOfBounds).
Proof.
  apply (build_on_empty_tree 3 (set_init blank [4])). reflexivity.
Defined.

(** ** Arguments outside the index range *)

(** X4.  The indices passed to the public operations are only compared
    with node ranges, never used to index a buffer: in every reachable
    state, [query], [at] and both [update]s finish for all arguments
    whatsoever, in range or not, and leave the size and the two buffer
    lengths as they were. *)
Theorem any_arguments_stay_in_the_buffers s lo hi idx v :
  reachable s →
  (∃ r s', query lo hi s = Ok (r, s') ∧ size s' = size s ∧
           length (tree s') = length (tree s) ∧
           length (lazy s') = length (lazy s)) ∧
  (∃ r s', at_ idx s = Ok (r, s') ∧ size s' = size s ∧
           length (tree s') = length (tree s) ∧
           length (lazy s') = length (lazy s)) ∧
  (∃ s', update lo hi v s = Ok s' ∧ size s' = size s ∧
         length (tree s') = length (tree s) ∧
         length (lazy s') = length (lazy s)) ∧
  (∃ s', update_point idx v s = Ok s' ∧ size s' = size s ∧
         length (tree s') = length (tree s) ∧
         length (lazy s') = length (lazy s)).
Proof.
  intros Hr. pose proof (reachable_allocated s Hr) as Al.
  assert (Q : ∀ p q, ∃ r s', query p q s = Ok (r, s') ∧ size s' = size s ∧
                             length (tree s') = length (tree s) ∧
                             length (lazy s') = length (lazy s)).
  { intros p q. destruct (query_total p q s Al) as (r & s' & E).
    exists r, s'. split; [done|]. unfold query in E.
    apply internal_query_frame in E as [Sh _]; [|lia].
    destruct Sh as (H1 & _ & _ & _ & _ & H2 & H3). by repeat split. }
  assert (U : ∀ p q, ∃ s', update p q v s = Ok s' ∧ size s' = size s ∧
                           length (tree s') = length (tree s) ∧
                           length (lazy s') = length (lazy s)).
  { intros p q. destruct (update_total p q v s Al) as (s' & E).
    exists s'. split; [done|]. unfold update in E.
    apply internal_update_frame in E as [Sh _]; [|lia].
    destruct Sh as (H1 & _ & _ & _ & _ & H2 & H3). by repeat split. }
  split; [apply Q|]. split; [apply Q|]. split; [apply U|]. apply (U idx idx).
Qed.

Lemma any_arguments_stay_in_the_buffers_witness :
  ∃ r s', query (-3) 40 demo_pending = Ok (r, s') ∧
          size s' = size demo_pending ∧
          length (tree s') = length (tree demo_pending) ∧
          length (lazy s') = length (lazy demo_pending).
Proof.
  destruct (any_arguments_stay_in_the_buffers demo_pending (-3) 40 17 2
              demo_pending_reachable) as [H _].
  exact H.
Defined.

Lemma clamp_outside a b lo hi M :
  0 <= lo → lo <= hi → hi <= M →
  (Z.max a 0 >? hi) || (Z.min b M <? lo) = (a >? hi) || (b <? lo).
Proof.
  intros H1 H2 H3. rewrite !Z.gtb_ltb.
  destruct (Z.ltb_spec hi a), (Z.ltb_spec b lo);
    destruct (Z.ltb_spec hi (Z.max a 0)), (Z.ltb_spec (Z.min b M) lo);
    simpl; try done; lia.
Qed.

Lemma clamp_inside a b lo hi M :
  0 <= lo → lo <= hi → hi <= M →
  (Z.max a 0 <=? lo) && (hi <=? Z.min b M) = (a <=? lo) && (hi <=? b).
Proof.
  intros H1 H2 H3.
  destruct (Z.leb_spec a lo), (Z.leb_spec hi b);
    destruct (Z.leb_spec (Z.max a 0) lo), (Z.leb_spec hi (Z.min b M));
    simpl; try done; lia.
Qed.

(** The push-down does not look at the requested range. *)
Lemma push_down_set_range r cl cr s s' a b :
  push_down r cl cr s = Ok s' →
  push_down r cl cr (set_range s a b) = Ok (set_range s' a b).
Proof.
  unfold push_down. simpl. intros H.
  apply bind_Ok in H as (l & El & H). rewrite El. cbn [bind].
  destruct (negb (l =? nullv)).
  - apply bind_Ok in H as (z1 & E1 & H). rewrite E1. cbn [bind].
    apply bind_Ok in H as (z2 & E2 & H). rewrite E2. cbn [bind].
    apply bind_Ok in H as (z3 & E3 & H). rewrite E3. cbn [bind].
    by inv_ok H.
  - by inv_ok H.
Qed.

Lemma internal_query_clamp M fuel : ∀ node lo hi s v s',
  0 <= node → 0 <= lo → lo <= hi → hi <= M →
  internal_query fuel node lo hi s = Ok (v, s') →
  internal_query fuel node lo hi
                 (set_range s (Z.max (x s) 0) (Z.min (y s) M))
  = Ok (v, set_range s' (Z.max (x s) 0) (Z.min (y s) M)).
Proof.
  induction fuel as [|fuel IH]; intros node lo hi s v s' Hn Hlo Hle Hhi H;
    [discriminate|].
  simpl in H. simpl. rewrite clamp_outside, clamp_inside by done.
  destruct ((x s >? hi) || (y s <? lo)) eqn:Eout; [by inv_ok H|].
  destruct ((x s <=? lo) && (hi <=? y s)) eqn:Ein.
  { apply bind_Ok in H as (l & El & H). rewrite El. cbn [bind].
    destruct (l =? nullv).
    - apply bind_Ok in H as (t & Et & H). rewrite Et. cbn [bind]. by inv_ok H.
    - apply bind_Ok in H as (t & Et & H). rewrite Et. cbn [bind]. by inv_ok H. }
  assert (Hlt : lo < hi) by (eapply partial_internal; eauto).
  pose proof (midpoint lo hi Hlo Hlt) as Hm.
  apply bind_Ok in H as (s1 & E & H).
  apply bind_Ok in H as ([va s2] & E0 & H).
  apply bind_Ok in H as ([vb s3] & E1 & H).
  inv_ok H.
  pose proof (push_down_frame node _ _ Hn E) as [Sh1 _].
  pose proof (internal_query_frame fuel (node * 2 + 1) _ _ _ _ _ ltac:(lia) E0)
    as [Sh2 _].
  rewrite (push_down_set_range _ _ _ _ _ _ _ E). cbn [bind].
  apply IH in E0; [|lia..]. apply IH in E1; [|lia..].
  destruct Sh1 as (_ & X1 & Y1 & _). destruct Sh2 as (_ & X2 & Y2 & _).
  rewrite X1, Y1 in E0. rewrite X2, X1, Y2, Y1 in E1.
  rewrite E0. cbn [bind]. rewrite E1. reflexivity.
Qed.

Lemma internal_update_clamp M fuel : ∀ node lo hi s s',
  0 <= node → 0 <= lo → lo <= hi → hi <= M →
  internal_update fuel node lo hi s = Ok s' →
  internal_update fuel node lo hi
                  (set_range s (Z.max (x s) 0) (Z.min (y s) M))
  = Ok (set_range s' (Z.max (x s) 0) (Z.min (y s) M)).
Proof.
  induction fuel as [|fuel IH]; intros node lo hi s s' Hn Hlo Hle Hhi H;
    [discriminate|].
  simpl in H. simpl. rewrite clamp_outside, clamp_inside by done.
  destruct ((x s >? hi) || (y s <? lo)) eqn:Eout; [by inv_ok H|].
  destruct (lo =? hi) eqn:Eleaf.
  { apply bind_Ok in H as (t & Et & H). rewrite Et. cbn [bind]. by inv_ok H. }
  apply Z.eqb_neq in Eleaf.
  destruct ((x s <=? lo) && (hi <=? y s)) eqn:Ein.
  { apply bind_Ok in H as (l & El & H). rewrite El. cbn [bind].
    apply bind_Ok in H as (z & Ez & H). rewrite Ez. cbn [bind].
    apply bind_Ok in H as (t & Et & H). rewrite Et. cbn [bind]. by inv_ok H. }
  pose proof (midpoint lo hi Hlo ltac:(lia)) as Hm.
  apply bind_Ok in H as (s1 & E & H).
  apply bind_Ok in H as (s2 & E0 & H).
  apply bind_Ok in H as (s3 & E1 & H).
  apply bind_Ok in H as (ta & E2 & H).
  apply bind_Ok in H as (tb & E3 & H).
  apply bind_Ok in H as (t & E4 & H).
  inv_ok H.
  pose proof (push_down_frame node _ _ Hn E) as [Sh1 _].
  pose proof (internal_update_frame fuel (node * 2 + 1) _ _ _ _ ltac:(lia) E0)
    as [Sh2 _].
  rewrite (push_down_set_range _ _ _ _ _ _ _ E). cbn [bind].
  apply IH in E0; [|lia..]. apply IH in E1; [|lia..].
  destruct Sh1 as (_ & X1 & Y1 & _). destruct Sh2 as (_ & X2 & Y2 & _).
  rewrite X1, Y1 in E0. rewrite X2, X1, Y2, Y1 in E1.
  rewrite E0. cbn [bind]. rewrite E1. cbn [bind]. simpl.
  rewrite E2, E3. cbn [bind]. rewrite E4. reflexivity.
Qed.

(** X5.  A range that sticks out of [[0, N-1]] is treated as its
    intersection with [[0, N-1]]: in every reachable state [query(lo, hi)]
    returns what [query(max(lo, 0), min(hi, N-1))] returns, and
    [update(lo, hi, v)] leaves the same buffers as the update of the
    clamped range; the calls differ only in the bounds kept in [x]
    and [y]. *)
Theorem out_of_range_arguments_are_clamped s lo hi v :
  reachable s →
  (∃ r s', query lo hi s = Ok (r, s') ∧
           query (Z.max lo 0) (Z.min hi (size s - 1)) s
           = Ok (r, set_range s' (Z.max lo 0) (Z.min hi (size s - 1)))) ∧
  (∃ s', update lo hi v s = Ok s' ∧
         update (Z.max lo 0) (Z.min hi (size s - 1)) v s
         = Ok (set_range s' (Z.max lo 0) (Z.min hi (size s - 1)))).
Proof.
  intros Hr. pose proof (reachable_allocated s Hr) as Al.
  pose proof Al as [Hpos _]. split.
  - destruct (query_total lo hi s Al) as (r & s' & E).
    exists r, s'. split; [done|]. unfold query in E.
    apply (internal_query_clamp (len s - 1)) in E; try lia. exact E.
  - destruct (update_total lo hi v s Al) as (s' & E).
    exists s'. split; [done|]. unfold update in E.
    apply (internal_update_clamp (len s - 1)) in E; try lia. exact E.
Qed.

Lemma out_of_range_arguments_are_clamped_witness :
  ∃ r s', query (-3) 40 demo_pending = Ok (r, s') ∧
          query (Z.max (-3) 0) (Z.min 40 (size demo_pending - 1)) demo_pending
          = Ok (r, set_range s' (Z.max (-3) 0)
                             (Z.min 40 (size demo_pending - 1))).
Proof.
  destruct (out_of_range_arguments_are_clamped demo_pending (-3) 40 2
              demo_pending_reachable) as [H _].
  exact H.
Defined.

(** ** Reading single elements *)

Lemma at_value i s :
  allocated s →
  value (at_ i s)
  = Some (qval (Z.to_nat (len s)) i i 0 0 (len s - 1) nullv s).
Proof.
  intros Al. destruct (query_total i i s Al) as (r & s' & E).
  unfold at_. rewrite E. simpl. f_equal. by apply query_qval in E as (-> & _).
Qed.

(** With a value inherited from above, what the node itself has pending
    does not matter. *)
Lemma qval_inherited_push_down fuel a b r c lo hi inh s s1 :
  0 <= r → c = r * 2 + 1 ∨ c = r * 2 + 2 → inh ≠ nullv →
  push_down r (r * 2 + 1) (r * 2 + 2) s = Ok s1 →
  qval fuel a b c lo hi inh s1 = qval fuel a b c lo hi inh s.
Proof.
  intros Hr Hc Hinh H.
  apply push_down_Ok in H as (_ & Ht & _ & _ & _ & _ & Hoth); [|done].
  destruct fuel as [|fuel]; [done|]. simpl.
  assert (Hdeep : ∀ g, g = c * 2 + 1 ∨ g = c * 2 + 2 → inside_same g s s1).
  { intros g Hg i Hi. rewrite Ht. split; [done|].
    apply desc_ge in Hi; [|lia]. apply Hoth; lia. }
  rewrite Ht.
  rewrite (qval_ext fuel a b (c * 2 + 1) _ _ _ s s1) by (apply Hdeep; lia).
  rewrite (qval_ext fuel a b (c * 2 + 2) _ _ _ s s1) by (apply Hdeep; lia).
  apply Z.eqb_neq in Hinh. by rewrite Hinh.
Qed.

(** A query of any range leaves every point query as it was. *)
Lemma internal_query_keeps_points i fuel : ∀ node lo hi s v s' inh,
  0 <= node → 0 <= lo → lo <= hi →
  internal_query fuel node lo hi s = Ok (v, s') →
  qval fuel i i node lo hi inh s' = qval fuel i i node lo hi inh s.
Proof.
  induction fuel as [|fuel IH]; intros node lo hi s v s' inh Hn Hlo Hle H;
    [discriminate|].
  simpl in H.
  destruct ((x s >? hi) || (y s <? lo)) eqn:Eout; [by inv_ok H|].
  destruct ((x s <=? lo) && (hi <=? y s)) eqn:Ein.
  { apply bind_Ok in H as (l & El & H). apply load_Ok in El as [_ <-].
    destruct (rd (lazy s) node =? nullv) eqn:E.
    { apply bind_Ok in H as (t & Et & H). by inv_ok H. }
    apply bind_Ok in H as (t & Et & H). inv_ok H.
    pose proof (set_tree_same_left node s _ _ Hn Et) as SL.
    pose proof (set_tree_same_right node s _ _ Hn Et) as SR.
    simpl.
    rewrite (qval_ext fuel i i (node * 2 + 1) _ _ _ _ _ SL).
    rewrite (qval_ext fuel i i (node * 2 + 2) _ _ _ _ _ SR).
    destruct (inh =? nullv) eqn:Einh; cbn iota; [rewrite E|rewrite Einh];
      reflexivity. }
  assert (Hlt : lo < hi) by (eapply partial_internal; eauto).
  pose proof (midpoint lo hi Hlo Hlt) as Hm.
  apply bind_Ok in H as (s1 & E & H).
  apply bind_Ok in H as ([va s2] & E0 & H).
  apply bind_Ok in H as ([vb s3] & E1 & H).
  inv_ok H.
  pose proof (push_down_Ok _ _ _ Hn E) as (_ & Ht1 & _ & Hcl & Hid & _).
  pose proof (internal_query_frame fuel (node * 2 + 1) _ _ _ _ _ ltac:(lia) E0)
    as [_ K2].
  pose proof (internal_query_frame fuel (node * 2 + 2) _ _ _ _ _ ltac:(lia) E1)
    as [_ K3].
  assert (Hnode : rd (lazy s') node = nullv).
  { rewrite <- Hcl. transitivity (rd (lazy s2) node).
    - apply K3. by apply desc_not_parent_r.
    - apply K2. by apply desc_not_parent_l. }
  assert (QL : ∀ e, qval fuel i i (node * 2 + 1) lo ((lo + hi) ÷ 2) e s'
                    = qval fuel i i (node * 2 + 1) lo ((lo + hi) ÷ 2) e s1).
  { intros e. rewrite <- (IH (node * 2 + 1) lo ((lo + hi) ÷ 2) s1 va s2 e
                  ltac:(lia) Hlo ltac:(lia) E0).
    apply qval_ext. by apply kept_right_same_left. }
  assert (QR : ∀ e, qval fuel i i (node * 2 + 2) ((lo + hi) ÷ 2 + 1) hi e s'
                    = qval fuel i i (node * 2 + 2) ((lo + hi) ÷ 2 + 1) hi e s1).
  { intros e. rewrite (IH (node * 2 + 2) ((lo + hi) ÷ 2 + 1) hi s2 vb s' e
               ltac:(lia) ltac:(lia) ltac:(lia) E1).
    apply qval_ext. by apply kept_left_same_right. }
  simpl. rewrite Hnode, (inside_false i i) by lia.
  destruct ((i >? hi) || (i <? lo)); [done|].
  rewrite !QL, !QR.
  destruct (inh =? nullv) eqn:Einh.
  - rewrite (qval_push_down fuel i i node (node * 2 + 1) _ _ s s1)
      by (done || lia).
    rewrite (qval_push_down fuel i i node (node * 2 + 2) _ _ s s1)
      by (done || lia).
    done.
  - apply Z.eqb_neq in Einh.
    rewrite (qval_inherited_push_down fuel i i node (node * 2 + 1) _ _ _ s s1)
      by (done || lia).
    rewrite (qval_inherited_push_down fuel i i node (node * 2 + 2) _ _ _ s s1)
      by (done || lia).
    done.
Qed.

Lemma query_keeps_at a b i s v s' :
  allocated s → query a b s = Ok (v, s') →
  value (at_ i s') = value (at_ i s).
Proof.
  intros Al H.
  pose proof (query_allocated _ _ _ _ _ Al H) as Al'.
  rewrite !at_value by done.
  unfold query in H.
  pose proof (internal_query_frame _ _ _ _ _ _ _ (Z.le_refl 0) H) as [Sh _].
  assert (Hlen : len s' = len s) by apply Sh.
  destruct Al as [Hpos _].
  apply (internal_query_keeps_points i) with (inh := nullv) in H;
    simpl; try lia.
  rewrite Hlen, H. f_equal. apply qval_set_range.
Qed.

(** X6.  Reading does not disturb single elements: in every reachable
    state, after [query(a, b)] for any [a] and [b], [at(i)] returns for
    every [i] what it would have returned before the query. *)
Theorem queries_keep_every_element s a b i :
  reachable s →
  ∃ r s', query a b s = Ok (r, s') ∧ value (at_ i s') = value (at_ i s).
Proof.
  intros Hr. pose proof (reachable_allocated s Hr) as Al.
  destruct (query_total a b s Al) as (r & s' & E).
  exists r, s'. split; [done|]. by apply (query_keeps_at a b i s r).
Qed.

Lemma queries_keep_every_element_witness :
  ∃ r s', query 1 3 demo_pending = Ok (r, s') ∧
          value (at_ 2 s') = value (at_ 2 demo_pending).
Proof.
  apply (queries_keep_every_element demo_pending 1 3 2).
  exact demo_pending_reachable.
Defined.

Lemma print_from_values n : ∀ i s,
  allocated s →
  ∃ out s', print_from n i s = Ok (out, s') ∧
            length out = n ∧
            ∀ k, (k < n)%nat → Some <$> out !! k = Some (value (at_ (i + Z.of_nat k) s)).
Proof.
  induction n as [|n IH]; intros i s Al.
  - exists [], s. split; [done|]. split; [done|]. intros k Hk. lia.
  - destruct (query_total i i s Al) as (v & s1 & E).
    pose proof (query_allocated _ _ _ _ _ Al E) as Al1.
    destruct (IH (i + 1) s1 Al1) as (out & s2 & Ep & Hl & Hv).
    exists (v :: out), s2. simpl. unfold at_ at 1. rewrite E. cbn [bind].
    rewrite Ep. cbn [bind]. split; [done|]. split; [simpl; lia|].
    intros [|k] Hk.
    + simpl. rewrite Z.add_0_r. unfold at_. rewrite E. done.
    + simpl. rewrite (Hv k) by lia. f_equal.
      rewrite (query_keeps_at i i _ s v s1 Al E). f_equal. f_equal. lia.
Qed.

(** X7.  The printing loop of the driver, run in any reachable state,
    prints [size()] numbers, and the number printed for index [i] is what
    [at(i)] alone would have returned in the state before the loop: the
    earlier reads of the loop do not change the later ones. *)
Theorem print_all_reads_every_element s :
  reachable s →
  ∃ out s', print_all s = Ok (out, s') ∧
            Z.of_nat (length out) = size s ∧
            ∀ i, 0 <= i < size s → value (at_ i s) = out !! Z.to_nat i.
Proof.
  intros Hr. pose proof (reachable_allocated s Hr) as Al.
  pose proof Al as [Hpos _].
  destruct (print_from_values (Z.to_nat (size s)) 0 s Al)
    as (out & s' & E & Hl & Hv).
  exists out, s'. split; [done|]. split; [unfold size in *; lia|].
  intros i Hi. specialize (Hv (Z.to_nat i) ltac:(unfold size in *; lia)).
  rewrite Z.add_0_l, Z2Nat.id in Hv by lia.
  destruct (out !! Z.to_nat i) as [o|] eqn:Eo; simpl in Hv; congruence.
Qed.

Lemma print_all_reads_every_element_witness :
  ∃ out s', print_all demo_pending = Ok (out, s') ∧
            Z.of_nat (length out) = size demo_pending ∧
            ∀ i, 0 <= i < size demo_pending →
                 value (at_ i demo_pending) = out !! Z.to_nat i.
Proof.
  apply (print_all_reads_every_element demo_pending).
  exact demo_pending_reachable.
Defined.

(** ** Updates of a tree without pending values *)

Lemma merge_same v : merge v v = v.
Proof. unfold merge. by destruct (v >? v). Qed.

(** Below a node with a pending value [inh], a query of a range that
    meets the node's range reads [inh]. *)
Lemma qval_inherit_range fuel a b : ∀ node lo hi inh s,
  inh ≠ nullv → nullv <= inh → 0 <= lo → lo <= hi →
  a <= b → a <= hi → lo <= b →
  hi - lo < Z.of_nat fuel →
  qval fuel a b node lo hi inh s = inh.
Proof.
  induction fuel as [|fuel IH];
    intros node lo hi inh s Hne Hge Hlo Hle Hab Ha Hb Hf; [lia|].
  simpl. rewrite outside_false by lia.
  apply Z.eqb_neq in Hne. rewrite Hne. cbn iota. rewrite Hne.
  apply Z.eqb_neq in Hne.
  destruct ((a <=? lo) && (hi <=? b)) eqn:Ein; [done|].
  assert (Hlt : lo < hi).
  { apply (partial_internal a b); [done| |done]. apply outside_false; lia. }
  pose proof (midpoint lo hi Hlo Hlt) as Hm.
  destruct (Z_le_gt_dec a ((lo + hi) ÷ 2));
    destruct (Z_le_gt_dec ((lo + hi) ÷ 2 + 1) b); [| | |lia].
  - rewrite !IH by (done || lia). apply merge_same.
  - rewrite IH by (done || lia).
    rewrite qval_outside by lia. by apply merge_nullv_r.
  - rewrite (IH (node * 2 + 2)) by (done || lia).
    rewrite qval_outside by lia. by apply merge_nullv_l.
Qed.

Section Assign.
Variable B : Z.

(** On a subtree without pending values, an update makes every query
    inside the updated range read the new value. *)
Lemma internal_update_assigns_range fuel a b : ∀ node lo hi s s',
  internal_update fuel node lo hi s = Ok s' →
  fits B node lo hi → Z.of_nat (length (lazy s)) = B →
  no_pending_in node s →
  hi - lo < Z.of_nat fuel →
  nullv < val s →
  x s <= a → a <= b → b <= y s →
  a <= hi → lo <= b →
  qval fuel a b node lo hi nullv s' = val s.
Proof.
  induction fuel as [|fuel IH];
    intros node lo hi s s' H Hf Hl Hp Hfu Hv Hxa Hab Hby Ha Hb;
    [discriminate|].
  pose proof (no_pending_node _ _ _ _ _ Hf Hl Hp) as Hnode.
  pose proof (fits_node _ _ _ _ Hf) as Hn.
  pose proof (fits_lo _ _ _ _ Hf) as Hlo.
  assert (Hle : lo <= hi) by (by destruct Hf as (_ & _ & ? & _)).
  assert (Hne : val s ≠ nullv) by lia.
  simpl in H. rewrite outside_false in H by lia.
  destruct (lo =? hi) eqn:Eleaf.
  { apply Z.eqb_eq in Eleaf.
    apply bind_Ok in H as (t & E1 & H). inv_ok H.
    simpl. rewrite outside_false by lia.
    rewrite Hnode, ?Z.eqb_refl. rewrite inside_true by lia.
    by apply store_Ok in E1 as (_ & _ & -> & _). }
  apply Z.eqb_neq in Eleaf.
  assert (Hlt : lo < hi) by lia.
  pose proof (midpoint lo hi Hlo Hlt) as Hm.
  destruct (fits_children _ _ _ _ Hf Hlt) as (FL & FR & _).
  destruct ((x s <=? lo) && (hi <=? y s)) eqn:Ein.
  { apply bind_Ok in H as (l & E1 & H). apply bind_Ok in H as (z & E2 & H).
    apply bind_Ok in H as (t & E3 & H). inv_ok H.
    apply load_Ok in E1 as [_ <-]. rewrite Hnode in E2.
    rewrite merge_nullv_l in E2 by lia.
    apply store_Ok in E2 as (_ & _ & V2 & _).
    transitivity
      (qval (S fuel) a b node lo hi (val s) (set_tree (set_lazy s z) t)).
    - simpl. rewrite V2.
      apply Z.eqb_neq in Hne. rewrite Hne. cbn iota. rewrite ?Hne.
      reflexivity.
    - apply qval_inherit_range; done || lia. }
  assert (Qin : (a <=? lo) && (hi <=? b) = false).
  { apply andb_false_iff in Ein as [Ein|Ein]; apply Z.leb_gt in Ein;
      apply inside_false; lia. }
  apply bind_Ok in H as (s1 & E & H).
  apply bind_Ok in H as (s2 & E0 & H).
  apply bind_Ok in H as (s3 & E1 & H).
  apply bind_Ok in H as (ta & E2 & H).
  apply bind_Ok in H as (tb & E3 & H).
  apply bind_Ok in H as (t & E4 & H).
  inv_ok H.
  pose proof (push_down_Ok node _ _ ltac:(lia) E) as (_ & _ & _ & _ & Hid & _).
  rewrite (Hid Hnode) in *. clear Hid E.
  pose proof (internal_update_frame fuel (node * 2 + 1) _ _ _ _ ltac:(lia) E0)
    as [Sh2 K2].
  pose proof (internal_update_frame fuel (node * 2 + 2) _ _ _ _ ltac:(lia) E1)
    as [Sh3 K3].
  pose proof Sh2 as (_ & X2 & Y2 & V2 & _ & _ & L2).
  assert (Hn3 : rd (lazy s3) node = nullv).
  { rewrite <- Hnode. transitivity (rd (lazy s2) node).
    - apply K3. apply desc_not_parent_r. lia.
    - apply K2. apply desc_not_parent_l. lia. }
  assert (QL : a <= (lo + hi) ÷ 2 →
               qval fuel a b (node * 2 + 1) lo ((lo + hi) ÷ 2) nullv
                    (set_tree s3 t) = val s).
  { intros Hal.
    transitivity (qval fuel a b (node * 2 + 1) lo ((lo + hi) ÷ 2) nullv s2).
    - apply qval_ext. eapply inside_same_trans.
      + apply kept_right_same_left; [lia|exact K3].
      + eapply set_tree_same_left; [lia|eauto].
    - apply IH; auto using no_pending_left; lia. }
  assert (QR : (lo + hi) ÷ 2 + 1 <= b →
               qval fuel a b (node * 2 + 2) ((lo + hi) ÷ 2 + 1) hi nullv
                    (set_tree s3 t) = val s).
  { intros Hbr.
    transitivity (qval fuel a b (node * 2 + 2) ((lo + hi) ÷ 2 + 1) hi nullv s3).
    - apply qval_ext. eapply set_tree_same_right; [lia|eauto].
    - rewrite <- V2. apply IH; try done; try lia.
      apply no_pending_same with s; [|done|by apply no_pending_right].
      apply kept_left_same_right; [lia|done]. }
  simpl. rewrite outside_false by lia. rewrite Hn3, ?Z.eqb_refl, Qin.
  destruct (Z_le_gt_dec a ((lo + hi) ÷ 2));
    destruct (Z_le_gt_dec ((lo + hi) ÷ 2 + 1) b); [| | |lia].
  - rewrite QL, QR by done. apply merge_same.
  - rewrite QL by done. rewrite qval_outside by lia. apply merge_nullv_r. lia.
  - rewrite QR by done. rewrite qval_outside by lia. apply merge_nullv_l. lia.
Qed.
End Assign.

(** X8.  In a reachable state with no pending lazy value (such as the state
    right after construction), [update(lo, hi, v)] with [v] above the
    sentinel acts as a range assignment for the maximum query: every
    [query(a, b)] with [lo <= a <= b <= hi] inside the index range then
    returns exactly [v]. *)
Theorem update_assigns_range_when_nothing_pending s lo hi v a b :
  reachable s → no_pending_in 0 s →
  nullv < v →
  lo <= a → a <= b → b <= hi → 0 <= a → b < size s →
  ∃ s', update lo hi v s = Ok s' ∧ value (query a b s') = Some v.
Proof.
  intros Hr Hp Hv Hla Hab Hbh Ha Hb.
  pose proof (reachable_allocated s Hr) as Al.
  destruct (update_total lo hi v s Al) as [s' E].
  exists s'. split; [done|].
  pose proof (update_allocated _ _ _ _ _ Al E) as Al'.
  destruct (query_total a b s' Al') as (r & s'' & Eq).
  rewrite Eq. simpl. f_equal.
  apply query_qval in Eq as (-> & _).
  unfold update in E.
  pose proof (internal_update_frame _ _ _ _ _ _ (Z.le_refl 0) E) as [Sh _].
  assert (Hlen : len s' = len s) by apply Sh. rewrite Hlen.
  destruct Al as [Hpos [_ Hlz]]. unfold size in Hb.
  apply (internal_update_assigns_range (4 * len s) _ a b) in E; simpl;
    try done; try lia.
  by apply fits_root.
Qed.

Lemma update_assigns_range_when_nothing_pending_witness :
  ∃ s', update 1 4 12 demo = Ok s' ∧ value (query 2 3 s') = Some 12.
Proof.
  apply (update_assigns_range_when_nothing_pending demo 1 4 12 2 3).
  - exact demo_reachable.
  - exact demo_no_pending.
  - vm_compute. reflexivity.
  - lia.
  - lia.
  - lia.
  - lia.
  - simpl. lia.
Defined.

(** X9.  The first update after construction (of a size [N > 0] with
    [4 * N] representable in [int], the type in which the source computes
    [4*len]), with any bounds and a value above the sentinel: afterwards
    [at(i)] returns [v] for the indices inside [[lo, hi]] and the initial
    [A[i]] for all others. *)
Theorem first_update_after_construction N A junk lo hi v :
  0 < N → 4 * N <= INT_MAX →
  Z.of_nat (length A) = N → Forall is_int A →
  nullv < v →
  ∃ s s',
    segment_tree_new N (Some A) junk = Ok s ∧
    update lo hi v s = Ok s' ∧
    ∀ i, 0 <= i < N →
         value (at_ i s')
         = if (lo <=? i) && (i <=? hi) then Some v else A !! Z.to_nat i.
Proof.
  intros HN HB HA Hint Hv.
  destruct (segment_tree_new_Ok N (Some A) junk HN) as (s & E & Hlen & Al & P & _).
  { by intros a [= <-]. }
  destruct (segment_tree_new_build N A junk s HN E)
    as (s0 & Eb & I0 & L0 & S0 & P0).
  destruct (update_total lo hi v s Al) as [s' Eu].
  exists s, s'. split; [done|]. split; [done|]. intros i Hi.
  pose proof (update_allocated _ _ _ _ _ Al Eu) as Al'.
  rewrite at_value by done.
  unfold update in Eu.
  pose proof (internal_update_frame _ _ _ _ _ _ (Z.le_refl 0) Eu) as [Sh _].
  assert (Hlen' : len s' = len s) by apply Sh. rewrite Hlen', Hlen.
  rewrite Hlen in Eu. destruct Al as [_ [_ Hlz]]. rewrite Hlen in Hlz.
  destruct ((lo <=? i) && (i <=? hi)) eqn:Ein.
  - apply andb_true_iff in Ein as [I1 I2]. apply Z.leb_le in I1, I2.
    f_equal.
    apply (internal_update_assigns (4 * N) _ i) in Eu; simpl; try done;
      try lia.
    by apply fits_root.
  - assert (Hout : i < lo ∨ hi < i).
    { apply andb_false_iff in Ein as [I|I]; apply Z.leb_gt in I; lia. }
    apply (internal_update_disjoint _ i i) in Eu; [|lia|simpl; lia].
    rewrite Eu. rewrite (qval_ext _ _ _ _ _ _ _ s) by (by intros j _).
    assert (Hin : in_buf A i) by (unfold in_buf; lia).
    rewrite (rd_lookup A i Hin). f_equal. rewrite <- I0.
    apply build_leaves with (B := 4 * N) (s := s0); try done.
    + by apply fits_root.
    + apply S0.
    + lia.
    + rewrite I0. apply (Forall_lookup_1 _ _ _ _ Hint (rd_lookup A i Hin)).
Qed.

Lemma first_update_after_construction_witness :
  ∃ s s',
    segment_tree_new 5 (Some demo_array) (fun _ => 0) = Ok s ∧
    update 2 4 12 s = Ok s' ∧
    ∀ i, 0 <= i < 5 →
         value (at_ i s')
         = if (2 <=? i) && (i <=? 4) then Some 12
           else demo_array !! Z.to_nat i.
Proof.
  apply (first_update_after_construction 5 demo_array (fun _ => 0) 2 4 12).
  - lia.
  - unfold INT_MAX. lia.
  - reflexivity.
  - repeat constructor; vm_compute; discriminate.
  - vm_compute. reflexivity.
Defined.

(** ** The driver *)

(** X10.  What [main] prints, for any content of the fresh buffers: the
    first line is the initial array, the second line the array with
    indices 2 to 4 raised to 12, and the number printed for
    [T.query(0, 3)] is the maximum of 12 and the uninitialised content of
    [tree[6]] that [build] merged into node 3 before the leaf of index 4 was
    written; it is the 12 announced in the source exactly when that
    content is at most 12. *)
Theorem main_prints junk :
  main junk = Ok ([6; 4; 1; 8; 10], [6; 4; 12; 12; 12], Z.max (junk 6) 12).
Proof.
  transitivity
    (@Ok (list Z * list Z * Z)
         ([6; 4; 1; 8; 10], [6; 4; 12; 12; 12],
          merge (merge (merge (junk 6) 6) 12) 12)).
  - reflexivity.
  - assert (M : ∀ p q, merge p q = Z.max p q).
    { intros p q. unfold merge. rewrite Z.gtb_ltb.
      destruct (Z.ltb_spec q p); lia. }
    do 2 f_equal. rewrite !M. lia.
Qed.

(** ** Operations depend only on the subtree they are called on *)

Lemma level_desc (d : nat) : ∀ r i,
  0 <= r → 0 <= i → (i + 1) / 2 ^ Z.of_nat d = r + 1 → desc r i.
Proof.
  induction d as [|d IH]; intros r i Hr Hi H.
  - simpl in H. rewrite Z.div_1_r in H.
    replace i with r by lia. apply desc_self.
  - rewrite Nat2Z.inj_succ, Z.pow_succ_r in H by lia.
    rewrite (Z.mul_comm 2), <- Z.div_div in H by lia.
    set (q := (i + 1) / 2 ^ Z.of_nat d) in *.
    pose proof (Z.div_mod q 2 ltac:(lia)) as Hq.
    pose proof (Z.mod_pos_bound q 2 ltac:(lia)) as Hm.
    destruct (Z.eq_dec (q mod 2) 0) as [E|E].
    + apply desc_left. apply IH; [lia|done|]. fold q. lia.
    + apply desc_right. apply IH; [lia|done|]. fold q. lia.
Qed.

Lemma bounded_search (P : nat → Prop) :
  (∀ d, P d ∨ ¬ P d) →
  ∀ n, (∃ d, (d < n)%nat ∧ P d) ∨ ¬ (∃ d, (d < n)%nat ∧ P d).
Proof.
  intros HP. induction n as [|n [IH|IH]].
  - right. intros (d & Hd & _). lia.
  - left. destruct IH as (d & Hd & Hp). exists d. split; [lia|done].
  - destruct (HP n) as [Hn|Hn].
    + left. exists n. split; [lia|done].
    + right. intros (d & Hd & Hp).
      destruct (Nat.eq_dec d n) as [->|Hne]; [done|].
      apply IH. exists d. split; [lia|done].
Qed.

Lemma desc_dec r i : 0 <= r → desc r i ∨ ¬ desc r i.
Proof.
  intros Hr.
  destruct (Z_lt_le_dec i r) as [Hlt|Hge].
  { right. intros H. apply desc_ge in H; lia. }
  destruct (bounded_search
              (fun d => (i + 1) / 2 ^ Z.of_nat d = r + 1)
              ltac:(intros d; destruct (Z.eq_dec ((i + 1) / 2 ^ Z.of_nat d) (r + 1)); auto)
              (S (Z.to_nat (i + 1)))) as [(d & _ & H)|H].
  - left. apply (level_desc d); [done|lia|done].
  - right. intros Hd. apply desc_level in Hd as [d Hd]; [|done].
    apply H. exists d. split; [|done].
    assert (Hp : 0 < 2 ^ Z.of_nat d) by (apply Z.pow_pos_nonneg; lia).
    assert (Hle : 2 ^ Z.of_nat d <= i + 1).
    { destruct (Z_lt_le_dec (i + 1) (2 ^ Z.of_nat d)) as [Hs|]; [|done].
      rewrite Z.div_small in Hd by lia. lia. }
    pose proof (Z.pow_gt_lin_r 2 (Z.of_nat d) ltac:(lia) ltac:(lia)). lia.
Qed.

Lemma rd_ext l1 l2 :
  length l1 = length l2 → (∀ i, rd l1 i = rd l2 i) → l1 = l2.
Proof.
  intros Hlen H. apply list_eq. intros k.
  destruct (Nat.lt_ge_cases k (length l1)) as [Hk|Hk].
  - pose proof (rd_lookup l1 (Z.of_nat k) ltac:(unfold in_buf; lia)) as H1.
    pose proof (rd_lookup l2 (Z.of_nat k) ltac:(unfold in_buf; lia)) as H2.
    rewrite Nat2Z.id in H1, H2. rewrite H1, H2. f_equal. apply H.
  - rewrite !lookup_ge_None_2 by lia. done.
Qed.

Lemma same_shape_sym s t : same_shape s t → same_shape t s.
Proof. unfold same_shape. intuition congruence. Qed.

(** Two states with the same scalars and the same cells are the same. *)
Lemma state_ext s t :
  same_shape s t →
  (∀ i, rd (tree t) i = rd (tree s) i ∧ rd (lazy t) i = rd (lazy s) i) →
  t = s.
Proof.
  intros (H1 & H2 & H3 & H4 & H5 & H6 & H7) H.
  destruct s, t. simpl in *. subst.
  f_equal; apply rd_ext; try done; intros i; apply H.
Qed.

(** A change inside the subtree of [r] on top of agreement outside. *)
Lemma cells_by_region r s t :
  0 <= r →
  inside_same r s t → outside_kept r s t →
  ∀ i, rd (tree t) i = rd (tree s) i ∧ rd (lazy t) i = rd (lazy s) i.
Proof.
  intros Hr Hin Hout i. destruct (desc_dec r i Hr); [by apply Hin|by apply Hout].
Qed.

Lemma inside_same_sym r s t : inside_same r s t → inside_same r t s.
Proof. intros H i Hi. destruct (H i Hi). by split. Qed.

Lemma outside_kept_sym r s t : outside_kept r s t → outside_kept r t s.
Proof. intros H i Hi. destruct (H i Hi). by split. Qed.

Lemma load_agree l1 l2 i v :
  length l2 = length l1 → rd l2 i = rd l1 i →
  load l1 i = Ok v → load l2 i = Ok v.
Proof.
  intros Hl Hr H. apply load_Ok in H as [Hin <-].
  rewrite load_in by (unfold in_buf in *; lia). by rewrite Hr.
Qed.

Lemma store_agree l1 l2 i v l1' :
  length l2 = length l1 →
  store l1 i v = Ok l1' →
  ∃ l2', store l2 i v = Ok l2' ∧
         length l2' = length l1' ∧
         ∀ j, j = i ∨ rd l2 j = rd l1 j → rd l2' j = rd l1' j.
Proof.
  intros Hl H. apply store_Ok in H as (Hin & L1 & V1 & N1).
  assert (Hin2 : in_buf l2 i) by (unfold in_buf in *; lia).
  pose proof (store_in l2 i v Hin2) as E.
  exists (<[Z.to_nat i:=v]> l2). split; [done|].
  apply store_Ok in E as (_ & L2 & V2 & N2).
  split; [congruence|]. intros j Hj.
  destruct (Z.eq_dec j i) as [->|Hne]; [congruence|].
  rewrite N1, N2 by done. by destruct Hj.
Qed.

Lemma push_down_agree r s t s1 :
  0 <= r → same_shape s t → inside_same r s t →
  push_down r (r * 2 + 1) (r * 2 + 2) s = Ok s1 →
  ∃ t1, push_down r (r * 2 + 1) (r * 2 + 2) t = Ok t1 ∧
        same_shape s1 t1 ∧ inside_same r s1 t1.
Proof.
  intros Hr Sh In H.
  pose proof Sh as (_ & _ & _ & _ & _ & Lt & Ll).
  destruct (In r (desc_self r)) as [_ Hl].
  pose proof (push_down_Ok r s s1 Hr H) as (Sh1 & T1 & Hin & C1 & Id1 & Set1 & Oth1).
  assert (Ex : ∃ t1, push_down r (r * 2 + 1) (r * 2 + 2) t = Ok t1).
  { unfold push_down in *.
    apply bind_Ok in H as (l & El & H).
    rewrite (load_agree _ _ _ _ Ll Hl El). cbn [bind].
    destruct (negb (l =? nullv)); [|eauto].
    apply bind_Ok in H as (z1 & E1 & H).
    apply bind_Ok in H as (z2 & E2 & H).
    apply bind_Ok in H as (z3 & E3 & H).
    destruct (store_agree _ (lazy t) _ _ _ Ll E1) as (y1 & F1 & M1 & _).
    rewrite F1. cbn [bind].
    destruct (store_agree _ y1 _ _ _ M1 E2) as (y2 & F2 & M2 & _).
    rewrite F2. cbn [bind].
    destruct (store_agree _ y2 _ _ _ M2 E3) as (y3 & F3 & M3 & _).
    rewrite F3. cbn [bind]. eauto. }
  destruct Ex as [t1 Et]. exists t1. split; [done|].
  pose proof (push_down_Ok r t t1 Hr Et) as (Sh2 & T2 & _ & C2 & Id2 & Set2 & Oth2).
  split.
  { apply (same_shape_trans s1 s t1); [apply same_shape_sym; exact Sh1|].
    by apply (same_shape_trans s t t1). }
  intros i Hi. rewrite T1, T2. destruct (In i Hi) as [Ti Li].
  split; [done|].
  destruct (Z.eq_dec (rd (lazy s) r) nullv) as [E|E].
  - rewrite (Id1 E). rewrite Id2 by congruence. done.
  - destruct (Set1 E) as [A1 A2].
    destruct (Set2 ltac:(congruence)) as [B1 B2].
    destruct (Z.eq_dec i r) as [->|N0]; [congruence|].
    destruct (Z.eq_dec i (r * 2 + 1)) as [->|N1]; [congruence|].
    destruct (Z.eq_dec i (r * 2 + 2)) as [->|N2]; [congruence|].
    rewrite Oth1, Oth2 by done. done.
Qed.

(** Cells of [node]'s subtree after both children were handled. *)
Lemma inside_same_node r s t :
  (rd (tree t) r = rd (tree s) r ∧ rd (lazy t) r = rd (lazy s) r) →
  inside_same (r * 2 + 1) s t → inside_same (r * 2 + 2) s t →
  inside_same r s t.
Proof.
  intros H0 HL HR i Hi. inversion Hi; subst; [done|by apply HL|by apply HR].
Qed.

Lemma internal_query_agree fuel : ∀ node lo hi s t v s',
  0 <= node → same_shape s t → inside_same node s t →
  internal_query fuel node lo hi s = Ok (v, s') →
  ∃ t', internal_query fuel node lo hi t = Ok (v, t') ∧
        inside_same node s' t'.
Proof.
  induction fuel as [|fuel IH]; intros node lo hi s t v s' Hn Sh In H;
    [discriminate|].
  pose proof Sh as (_ & Xt & Yt & _ & _ & Lt & Ll).
  destruct (In node (desc_self node)) as [Tn Ln].
  simpl in H. simpl. rewrite Xt, Yt.
  destruct ((x s >? hi) || (y s <? lo)); [inv_ok H; eauto|].
  destruct ((x s <=? lo) && (hi <=? y s)).
  { apply bind_Ok in H as (l & El & H).
    rewrite (load_agree _ _ _ _ Ll Ln El). cbn [bind].
    destruct (l =? nullv).
    - apply bind_Ok in H as (u & Eu & H). inv_ok H.
      rewrite (load_agree _ _ _ _ Lt Tn Eu). cbn [bind]. eauto.
    - apply bind_Ok in H as (u & Eu & H). inv_ok H.
      destruct (store_agree _ (tree t) _ _ _ Lt Eu) as (u' & Eu' & _ & Hu).
      rewrite Eu'. cbn [bind]. eexists. split; [done|].
      intros i Hi. destruct (In i Hi) as [Ti Li]. simpl.
      split; [apply Hu; by right|done]. }
  apply bind_Ok in H as (s1 & E & H).
  apply bind_Ok in H as ([va s2] & E0 & H).
  apply bind_Ok in H as ([vb s3] & E1 & H).
  inv_ok H.
  destruct (push_down_agree node s t s1 Hn Sh In E) as (t1 & F & Sh1 & In1).
  rewrite F. cbn [bind].
  destruct (IH (node * 2 + 1) _ _ s1 t1 va s2 ltac:(lia) Sh1
               (inside_same_left _ _ _ In1) E0) as (t2 & F0 & InL).
  rewrite F0. cbn [bind].
  pose proof (internal_query_frame fuel (node * 2 + 1) _ _ _ _ _ ltac:(lia) E0)
    as [ShS2 KS2].
  pose proof (internal_query_frame fuel (node * 2 + 1) _ _ _ _ _ ltac:(lia) F0)
    as [ShT2 KT2].
  assert (Sh2 : same_shape s2 t2).
  { apply (same_shape_trans s2 s1 t2); [apply same_shape_sym; exact ShS2|].
    by apply (same_shape_trans s1 t1 t2). }
  assert (InR1 : inside_same (node * 2 + 2) s2 t2).
  { eapply inside_same_trans;
      [apply inside_same_sym, kept_left_same_right; [done|exact KS2]|].
    eapply inside_same_trans; [apply inside_same_right; exact In1|].
    by apply kept_left_same_right. }
  destruct (IH (node * 2 + 2) _ _ s2 t2 vb s' ltac:(lia) Sh2 InR1 E1)
    as (t3 & F1 & InR).
  rewrite F1. cbn [bind]. exists t3. split; [done|].
  pose proof (internal_query_frame fuel (node * 2 + 2) _ _ _ _ _ ltac:(lia) E1)
    as [_ KS3].
  pose proof (internal_query_frame fuel (node * 2 + 2) _ _ _ _ _ ltac:(lia) F1)
    as [_ KT3].
  apply inside_same_node; [|..|done].
  - destruct (KS3 node (desc_not_parent_r node Hn)) as [a1 a2].
    destruct (KS2 node (desc_not_parent_l node Hn)) as [b1 b2].
    destruct (KT3 node (desc_not_parent_r node Hn)) as [c1 c2].
    destruct (KT2 node (desc_not_parent_l node Hn)) as [d1 d2].
    destruct (In1 node (desc_self node)) as [e1 e2].
    split; congruence.
  - eapply inside_same_trans;
      [apply inside_same_sym, kept_right_same_left; [done|exact KS3]|].
    eapply inside_same_trans; [exact InL|].
    by apply kept_right_same_left.
Qed.

Lemma store_same buf i :
  in_buf buf i → store buf i (rd buf i) = Ok buf.
Proof.
  intros Hi. rewrite store_in by done. f_equal.
  apply list_insert_id. by apply rd_lookup.
Qed.

Lemma push_down_idle r cl cr s :
  in_buf (lazy s) r → rd (lazy s) r = nullv → push_down r cl cr s = Ok s.
Proof.
  intros Hi Hn. unfold push_down. rewrite load_in by done. cbn [bind].
  by rewrite Hn, Z.eqb_refl.
Qed.

Lemma set_range_id s a b : x s = a → y s = b → set_range s a b = s.
Proof. destruct s. simpl. by intros -> ->. Qed.

(** ** Repeating a query *)

(** Run again on the state it left, [internal_query] returns the same
    value and changes nothing. *)
Lemma internal_query_again fuel : ∀ node lo hi s v s',
  0 <= node →
  internal_query fuel node lo hi s = Ok (v, s') →
  internal_query fuel node lo hi s' = Ok (v, s').
Proof.
  induction fuel as [|fuel IH]; intros node lo hi s v s' Hn H;
    [discriminate|].
  pose proof (internal_query_frame _ _ _ _ _ _ _ Hn H) as [Sh _].
  pose proof Sh as (_ & Xs & Ys & _).
  simpl in H. simpl. rewrite Xs, Ys.
  destruct ((x s >? hi) || (y s <? lo)); [by inv_ok H|].
  destruct ((x s <=? lo) && (hi <=? y s)).
  { apply bind_Ok in H as (l & El & H).
    destruct (l =? nullv) eqn:E.
    - apply bind_Ok in H as (u & Eu & H). inv_ok H.
      rewrite El. cbn [bind]. rewrite E, Eu. done.
    - apply bind_Ok in H as (u & Eu & H). injection H as <- <-. simpl.
      rewrite El. cbn [bind]. rewrite E.
      apply store_Ok in Eu as (Hin & Lu & Vu & _).
      replace (store u node l) with (@Ok (list Z) u); [done|].
      rewrite <- Vu. symmetry. apply store_same.
      unfold in_buf in *. lia. }
  apply bind_Ok in H as (s1 & E & H).
  apply bind_Ok in H as ([va s2] & E0 & H).
  apply bind_Ok in H as ([vb s3] & E1 & H).
  inv_ok H.
  pose proof (push_down_Ok _ _ _ Hn E) as (Sh1 & _ & Hin & Hcl & _).
  pose proof (internal_query_frame fuel (node * 2 + 1) _ _ _ _ _ ltac:(lia) E0)
    as [Sh2 K2].
  pose proof (internal_query_frame fuel (node * 2 + 2) _ _ _ _ _ ltac:(lia) E1)
    as [Sh3 K3].
  assert (Hnode : rd (lazy s') node = nullv).
  { rewrite <- Hcl. transitivity (rd (lazy s2) node).
    - apply K3. by apply desc_not_parent_r.
    - apply K2. by apply desc_not_parent_l. }
  rewrite push_down_idle; [|destruct Sh as (_ & _ & _ & _ & _ & _ & Ll);
                             unfold in_buf in *; lia|done].
  cbn [bind].
  pose proof (IH (node * 2 + 1) _ _ _ _ _ ltac:(lia) E0) as A0.
  pose proof (IH (node * 2 + 2) _ _ _ _ _ ltac:(lia) E1) as A1.
  destruct (internal_query_agree fuel (node * 2 + 1) _ _ s2 s' va s2
              ltac:(lia) Sh3 (kept_right_same_left node _ _ Hn K3) A0)
    as (w & Ew & Inw).
  pose proof (internal_query_frame fuel (node * 2 + 1) _ _ _ _ _ ltac:(lia) Ew)
    as [Shw Kw].
  assert (w = s').
  { apply state_ext; [done|].
    apply (cells_by_region (node * 2 + 1)); [lia| |done].
    eapply inside_same_trans; [|exact Inw].
    apply inside_same_sym. by apply kept_right_same_left. }
  subst w. rewrite Ew. cbn [bind]. rewrite A1. done.
Qed.

(** X11.  A repeated query is a no-op: in every reachable state, for any
    bounds, a second [query(lo, hi)] right after the first returns the
    same value and leaves the object exactly as the first call left it. *)
Theorem repeated_query_changes_nothing s lo hi :
  reachable s →
  ∃ v s1, query lo hi s = Ok (v, s1) ∧ query lo hi s1 = Ok (v, s1).
Proof.
  intros Hr. pose proof (reachable_allocated s Hr) as Al.
  destruct (query_total lo hi s Al) as (v & s1 & E).
  exists v, s1. split; [done|]. unfold query in *.
  pose proof (internal_query_frame _ _ _ _ _ _ _ (Z.le_refl 0) E) as [Sh _].
  destruct Sh as (Hlen & Hx & Hy & _). simpl in *.
  rewrite set_range_id, Hlen by done.
  apply (internal_query_again _ _ _ _ _ _ _ (Z.le_refl 0) E).
Qed.

Lemma repeated_query_changes_nothing_witness :
  ∃ v s1, query 1 3 demo_pending = Ok (v, s1) ∧ query 1 3 s1 = Ok (v, s1).
Proof.
  apply (repeated_query_changes_nothing demo_pending 1 3).
  exact demo_pending_reachable.
Defined.

(** ** The order of the two recursive calls *)

Lemma internal_query_rl_same fuel : ∀ node lo hi s v s',
  0 <= node →
  internal_query fuel node lo hi s = Ok (v, s') →
  internal_query_rl fuel node lo hi s = Ok (v, s').
Proof.
  induction fuel as [|fuel IH]; intros node lo hi s v s' Hn H;
    [discriminate|].
  simpl in H. simpl.
  destruct ((x s >? hi) || (y s <? lo)); [done|].
  destruct ((x s <=? lo) && (hi <=? y s)); [done|].
  apply bind_Ok in H as (s1 & E & H).
  apply bind_Ok in H as ([va s2] & E0 & H).
  apply bind_Ok in H as ([vb s3] & E1 & H).
  inv_ok H. rewrite E. cbn [bind].
  pose proof (internal_query_frame fuel (node * 2 + 1) _ _ _ _ _ ltac:(lia) E0)
    as [Sh2 K2].
  pose proof (internal_query_frame fuel (node * 2 + 2) _ _ _ _ _ ltac:(lia) E1)
    as [Sh3 K3].
  (* the right call, started from the state before the left call *)
  destruct (internal_query_agree fuel (node * 2 + 2) _ _ s2 s1 vb s'
              ltac:(lia) (same_shape_sym _ _ Sh2)
              (inside_same_sym _ _ _ (kept_left_same_right node _ _ Hn K2)) E1)
    as (u2 & F1 & InR).
  pose proof (internal_query_frame fuel (node * 2 + 2) _ _ _ _ _ ltac:(lia) F1)
    as [ShU2 KU2].
  (* the left call, started from the state after the right call *)
  destruct (internal_query_agree fuel (node * 2 + 1) _ _ s1 u2 va s2
              ltac:(lia) ShU2 (kept_right_same_left node _ _ Hn KU2) E0)
    as (u3 & F0 & InL).
  pose proof (internal_query_frame fuel (node * 2 + 1) _ _ _ _ _ ltac:(lia) F0)
    as [ShU3 KU3].
  assert (u3 = s').
  { apply state_ext.
    - apply (same_shape_trans s' s2 u3); [by apply same_shape_sym|].
      apply (same_shape_trans s2 s1 u3); [by apply same_shape_sym|].
      by apply (same_shape_trans s1 u2 u3).
    - intros i.
      destruct (desc_dec (node * 2 + 1) i ltac:(lia)) as [Hl|Hl].
      + destruct (InL i Hl) as [a1 a2].
        destruct (K3 i) as [b1 b2].
        { intros Hr. by apply (desc_siblings node i). }
        split; congruence.
      + destruct (KU3 i Hl) as [a1 a2].
        destruct (K2 i Hl) as [c1 c2].
        destruct (desc_dec (node * 2 + 2) i ltac:(lia)) as [Hr|Hr].
        * destruct (InR i Hr) as [b1 b2]. split; congruence.
        * destruct (KU2 i Hr) as [b1 b2]. destruct (K3 i Hr) as [d1 d2].
          split; congruence. }
  subst u3.
  rewrite (IH (node * 2 + 2) _ _ _ _ _ ltac:(lia) F1). cbn [bind].
  rewrite (IH (node * 2 + 1) _ _ _ _ _ ltac:(lia) F0). done.
Qed.

(** X12.  The answer does not depend on the order in which the two
    arguments of [merge(internal_query(...), internal_query(...))] are
    evaluated: in every reachable state and for any bounds, the query
    that makes the right recursive call first returns the same value and
    leaves the same object as the query that makes the left call first. *)
Theorem evaluation_order_is_irrelevant s lo hi :
  reachable s →
  internal_query_rl (Z.to_nat (len s)) 0 0 (len s - 1) (set_range s lo hi)
  = query lo hi s.
Proof.
  intros Hr. pose proof (reachable_allocated s Hr) as Al.
  destruct (query_total lo hi s Al) as (v & s1 & E).
  rewrite E. unfold query in E.
  by apply internal_query_rl_same.
Qed.

Lemma evaluation_order_is_irrelevant_witness :
  internal_query_rl (Z.to_nat (len demo_pending)) 0 0 (len demo_pending - 1)
                    (set_range demo_pending 1 3)
  = query 1 3 demo_pending.
Proof.
  apply (evaluation_order_is_irrelevant demo_pending 1 3).
  exact demo_pending_reachable.
Defined.

(** ** Repeating an update *)

Lemma merge_absorb l v : merge (merge l v) v = merge l v.
Proof.
  unfold merge. rewrite !Z.gtb_ltb.
  destruct (Z.ltb_spec v l) as [H|H].
  - by destruct (Z.ltb_spec v l); [|lia].
  - by rewrite Z.ltb_irrefl.
Qed.

Lemma set_tree_id s : set_tree s (tree s) = s.
Proof. by destruct s. Qed.

Lemma set_val_range_id s a b v :
  x s = a → y s = b → val s = v → set_val (set_range s a b) v = s.
Proof. destruct s. simpl. by intros -> -> ->. Qed.

Lemma internal_update_agree fuel : ∀ node lo hi s t s',
  0 <= node → same_shape s t → inside_same node s t →
  internal_update fuel node lo hi s = Ok s' →
  ∃ t', internal_update fuel node lo hi t = Ok t' ∧
        inside_same node s' t'.
Proof.
  induction fuel as [|fuel IH]; intros node lo hi s t s' Hn Sh In H;
    [discriminate|].
  pose proof Sh as (_ & Xt & Yt & Vt & _ & Lt & Ll).
  destruct (In node (desc_self node)) as [Tn Ln].
  simpl in H. simpl. rewrite Xt, Yt, Vt.
  destruct ((x s >? hi) || (y s <? lo)); [inv_ok H; eauto|].
  destruct (lo =? hi).
  { apply bind_Ok in H as (u & Eu & H). inv_ok H.
    destruct (store_agree _ (tree t) _ _ _ Lt Eu) as (u' & Eu' & _ & Hu).
    rewrite Eu'. cbn [bind]. eexists. split; [done|].
    intros i Hi. destruct (In i Hi) as [Ti Li]. simpl.
    split; [apply Hu; by right|done]. }
  destruct ((x s <=? lo) && (hi <=? y s)).
  { apply bind_Ok in H as (l & El & H).
    apply bind_Ok in H as (z & Ez & H).
    apply bind_Ok in H as (u & Eu & H). inv_ok H.
    rewrite (load_agree _ _ _ _ Ll Ln El). cbn [bind].
    destruct (store_agree _ (lazy t) _ _ _ Ll Ez) as (z' & Ez' & _ & Hz).
    destruct (store_agree _ (tree t) _ _ _ Lt Eu) as (u' & Eu' & _ & Hu).
    rewrite Ez'. cbn [bind]. rewrite Eu'. cbn [bind].
    eexists. split; [done|].
    intros i Hi. destruct (In i Hi) as [Ti Li]. simpl.
    split; [apply Hu|apply Hz]; by right. }
  apply bind_Ok in H as (s1 & E & H).
  apply bind_Ok in H as (s2 & E0 & H).
  apply bind_Ok in H as (s3 & E1 & H).
  apply bind_Ok in H as (ta & E2 & H).
  apply bind_Ok in H as (tb & E3 & H).
  apply bind_Ok in H as (u & E4 & H).
  inv_ok H.
  destruct (push_down_agree node s t s1 Hn Sh In E) as (t1 & F & Sh1 & In1).
  rewrite F. cbn [bind].
  destruct (IH (node * 2 + 1) _ _ s1 t1 s2 ltac:(lia) Sh1
               (inside_same_left _ _ _ In1) E0) as (t2 & F0 & InL).
  rewrite F0. cbn [bind].
  pose proof (internal_update_frame fuel (node * 2 + 1) _ _ _ _ ltac:(lia) E0)
    as [ShS2 KS2].
  pose proof (internal_update_frame fuel (node * 2 + 1) _ _ _ _ ltac:(lia) F0)
    as [ShT2 KT2].
  assert (Sh2 : same_shape s2 t2).
  { apply (same_shape_trans s2 s1 t2); [apply same_shape_sym; exact ShS2|].
    by apply (same_shape_trans s1 t1 t2). }
  assert (InR1 : inside_same (node * 2 + 2) s2 t2).
  { eapply inside_same_trans;
      [apply inside_same_sym, kept_left_same_right; [done|exact KS2]|].
    eapply inside_same_trans; [apply inside_same_right; exact In1|].
    by apply kept_left_same_right. }
  destruct (IH (node * 2 + 2) _ _ s2 t2 s3 ltac:(lia) Sh2 InR1 E1)
    as (t3 & F1 & InR).
  rewrite F1. cbn [bind].
  pose proof (internal_update_frame fuel (node * 2 + 2) _ _ _ _ ltac:(lia) E1)
    as [ShS3 KS3].
  pose proof (internal_update_frame fuel (node * 2 + 2) _ _ _ _ ltac:(lia) F1)
    as [ShT3 KT3].
  assert (Sh3 : same_shape s3 t3).
  { apply (same_shape_trans s3 s2 t3); [apply same_shape_sym; exact ShS3|].
    by apply (same_shape_trans s2 t2 t3). }
  assert (InL3 : inside_same (node * 2 + 1) s3 t3).
  { eapply inside_same_trans;
      [apply inside_same_sym, kept_right_same_left; [done|exact KS3]|].
    eapply inside_same_trans; [exact InL|].
    by apply kept_right_same_left. }
  pose proof Sh3 as (_ & _ & _ & _ & _ & Lt3 & _).
  destruct (InL3 _ (desc_self _)) as [TL _].
  destruct (InR _ (desc_self _)) as [TR _].
  rewrite (load_agree _ _ _ _ Lt3 TL E2). cbn [bind].
  rewrite (load_agree _ _ _ _ Lt3 TR E3). cbn [bind].
  destruct (store_agree _ (tree t3) _ _ _ Lt3 E4) as (u' & Eu' & _ & Hu).
  rewrite Eu'. cbn [bind]. eexists. split; [done|].
  apply inside_same_node.
  - simpl. split; [apply Hu; by left|].
    destruct (KS3 node (desc_not_parent_r node Hn)) as [_ a2].
    destruct (KS2 node (desc_not_parent_l node Hn)) as [_ b2].
    destruct (KT3 node (desc_not_parent_r node Hn)) as [_ c2].
    destruct (KT2 node (desc_not_parent_l node Hn)) as [_ d2].
    destruct (In1 node (desc_self node)) as [_ e2].
    congruence.
  - intros i Hi. destruct (InL3 i Hi) as [Ti Li]. simpl.
    split; [apply Hu; by right|done].
  - intros i Hi. destruct (InR i Hi) as [Ti Li]. simpl.
    split; [apply Hu; by right|done].
Qed.

(** Run again on the state it left, [internal_update] changes nothing. *)
Lemma internal_update_again fuel : ∀ node lo hi s s',
  0 <= node →
  internal_update fuel node lo hi s = Ok s' →
  internal_update fuel node lo hi s' = Ok s'.
Proof.
  induction fuel as [|fuel IH]; intros node lo hi s s' Hn H;
    [discriminate|].
  pose proof (internal_update_frame _ _ _ _ _ _ Hn H) as [Sh _].
  pose proof Sh as (_ & Xs & Ys & Vs & _).
  simpl in H. simpl. rewrite Xs, Ys, Vs.
  destruct ((x s >? hi) || (y s <? lo)); [by inv_ok H|].
  destruct (lo =? hi).
  { apply bind_Ok in H as (u & Eu & H). injection H as <-. simpl.
    apply store_Ok in Eu as (Hin & Lu & Vu & _).
    replace (store u node (val s)) with (@Ok (list Z) u); [done|].
    rewrite <- Vu. symmetry. apply store_same. unfold in_buf in *. lia. }
  destruct ((x s <=? lo) && (hi <=? y s)).
  { apply bind_Ok in H as (l & El & H).
    apply bind_Ok in H as (z & Ez & H).
    apply bind_Ok in H as (u & Eu & H). injection H as <-. simpl.
    apply store_Ok in Ez as (Hinz & Lz & Vz & _).
    apply store_Ok in Eu as (Hinu & Lu & Vu & _).
    rewrite load_in by (unfold in_buf in *; lia). cbn [bind].
    rewrite Vz, merge_absorb.
    replace (store z node (merge l (val s))) with (@Ok (list Z) z).
    2:{ rewrite <- Vz. symmetry. apply store_same. unfold in_buf in *. lia. }
    cbn [bind].
    replace (store u node (merge l (val s))) with (@Ok (list Z) u); [done|].
    rewrite <- Vu. symmetry. apply store_same. unfold in_buf in *. lia. }
  apply bind_Ok in H as (s1 & E & H).
  apply bind_Ok in H as (s2 & E0 & H).
  apply bind_Ok in H as (s3 & E1 & H).
  apply bind_Ok in H as (ta & E2 & H).
  apply bind_Ok in H as (tb & E3 & H).
  apply bind_Ok in H as (u & E4 & H).
  injection H as <-.
  pose proof (push_down_Ok _ _ _ Hn E) as (Sh1 & _ & Hin & Hcl & _).
  pose proof (internal_update_frame fuel (node * 2 + 1) _ _ _ _ ltac:(lia) E0)
    as [Sh2 K2].
  pose proof (internal_update_frame fuel (node * 2 + 2) _ _ _ _ ltac:(lia) E1)
    as [Sh3 K3].
  pose proof (set_tree_frame _ _ _ _ E4) as [Sh4 _].
  set (s' := set_tree s3 u) in *.
  assert (Hnode : rd (lazy s') node = nullv).
  { rewrite <- Hcl. transitivity (rd (lazy s2) node).
    - apply K3. by apply desc_not_parent_r.
    - apply K2. by apply desc_not_parent_l. }
  rewrite push_down_idle; [|destruct Sh as (_ & _ & _ & _ & _ & _ & Ll);
                             unfold in_buf in *; lia|done].
  cbn [bind].
  pose proof (IH (node * 2 + 1) _ _ _ _ ltac:(lia) E0) as A0.
  pose proof (IH (node * 2 + 2) _ _ _ _ ltac:(lia) E1) as A1.
  assert (SL : inside_same (node * 2 + 1) s2 s').
  { eapply inside_same_trans; [by apply kept_right_same_left|].
    exact (set_tree_same_left node s3 _ u Hn E4). }
  assert (SR : inside_same (node * 2 + 2) s3 s')
    by exact (set_tree_same_right node s3 _ u Hn E4).
  destruct (internal_update_agree fuel (node * 2 + 1) _ _ s2 s' s2
              ltac:(lia) (same_shape_trans _ _ _ Sh3 Sh4) SL A0)
    as (w & Ew & Inw).
  pose proof (internal_update_frame fuel (node * 2 + 1) _ _ _ _ ltac:(lia) Ew)
    as [Shw Kw].
  assert (w = s').
  { apply state_ext; [done|].
    apply (cells_by_region (node * 2 + 1)); [lia| |done].
    eapply inside_same_trans; [|exact Inw]. by apply inside_same_sym. }
  subst w. rewrite Ew. cbn [bind].
  destruct (internal_update_agree fuel (node * 2 + 2) _ _ s3 s' s3
              ltac:(lia) Sh4 SR A1)
    as (w & Ew' & Inw').
  pose proof (internal_update_frame fuel (node * 2 + 2) _ _ _ _ ltac:(lia) Ew')
    as [Shw' Kw'].
  assert (w = s').
  { apply state_ext; [done|].
    apply (cells_by_region (node * 2 + 2)); [lia| |done].
    eapply inside_same_trans; [|exact Inw']. by apply inside_same_sym. }
  subst w. rewrite Ew'. cbn [bind].
  apply store_Ok in E4 as (Hinu & Lu & Vu & Nu).
  apply load_Ok in E2 as [HinL <-]. apply load_Ok in E3 as [HinR <-].
  subst s'. simpl.
  rewrite !load_in by (unfold in_buf in *; lia). cbn [bind].
  rewrite !Nu by lia.
  replace (store u node _) with (@Ok (list Z) u); [done|].
  rewrite <- Vu. symmetry. apply store_same. unfold in_buf in *. lia.
Qed.

(** X13.  Updates are idempotent: in every reachable state, for any
    bounds and value, a second [update(lo, hi, v)] right after the first
    leaves the object exactly as the first call left it. *)
Theorem repeated_update_changes_nothing s lo hi v :
  reachable s →
  ∃ s1, update lo hi v s = Ok s1 ∧ update lo hi v s1 = Ok s1.
Proof.
  intros Hr. pose proof (reachable_allocated s Hr) as Al.
  destruct (update_total lo hi v s Al) as (s1 & E).
  exists s1. split; [done|]. unfold update in *.
  pose proof (internal_update_frame _ _ _ _ _ _ (Z.le_refl 0) E) as [Sh _].
  destruct Sh as (Hlen & Hx & Hy & Hv & _). simpl in *.
  rewrite set_val_range_id, Hlen by done.
  apply (internal_update_again _ _ _ _ _ _ (Z.le_refl 0) E).
Qed.

Lemma repeated_update_changes_nothing_witness :
  ∃ s1, update 1 3 9 demo_pending = Ok s1 ∧ update 1 3 9 s1 = Ok s1.
Proof.
  apply (repeated_update_changes_nothing demo_pending 1 3 9).
  exact demo_pending_reachable.
Defined.

(** ** Ranges that miss the index range *)

(** X14.  A range that lies entirely below 0 or entirely above [N - 1] is
    rejected at the root: in every reachable state such a [query] returns
    the sentinel [nullv()] and such an [update] writes no buffer cell;
    both only record the bounds (and the value) in the object. *)
Theorem ranges_outside_touch_nothing s lo hi v :
  reachable s →
  hi < 0 ∨ size s <= lo →
  query lo hi s = Ok (nullv, set_range s lo hi) ∧
  update lo hi v s = Ok (set_val (set_range s lo hi) v).
Proof.
  intros Hr Hout. destruct (reachable_allocated s Hr) as [Hpos _].
  unfold query, update, size in *.
  destruct (Z.to_nat (len s)) as [|n] eqn:En; [lia|].
  simpl. rewrite outside_true by lia. done.
Qed.

Lemma ranges_outside_touch_nothing_witness :
  query 5 9 demo_pending = Ok (nullv, set_range demo_pending 5 9) ∧
  update 5 9 3 demo_pending = Ok (set_val (set_range demo_pending 5 9) 3).
Proof.
  apply (ranges_outside_touch_nothing demo_pending 5 9 3).
  - exact demo_pending_reachable.
  - right. simpl. lia.
Defined.
